(** * PiWiFi web client: chunked BLE response reassembly and dispatch

    A shallow embedding of the protocol core of [src/app.js]: the
    notification handler [onResponse] (fragment reassembly), the
    dispatcher [handleResponse] and the command writer [sendCommand].

    - A notification value is the [Uint8Array] the handler builds from
      the event, a list of bytes.
    - The global [chunks] is a JavaScript array with holes; the global
      [expectedChunks] holds a number or [undefined].
    - Everything the code does to the outside (the DOM log, the UI
      handlers, the GATT write) is recorded as a trace of events, and an
      exception that leaves a function is part of its result. *)

From Stdlib Require Import Strings.Byte.
From stdpp Require Import base option list strings numbers.

Set Default Proof Using "Type".
Set Warnings "-register-all".

(** ** The JavaScript runtime the code relies on *)

Module JS.

(** [Uint8Array]: a sequence of bytes, each in 0..255. *)
Abbreviation Uint8Array := (list byte) (only parsing).

#[global] Instance byte_eq_dec : EqDecision byte := Byte.byte_eq_dec.

(** Exceptions, by constructor; [message] is [e.message]. *)
Inductive exn : Type :=
| TypeError (m : string)
| RangeError (m : string)
| SyntaxError (m : string)
| Error (m : string).

Definition message (e : exn) : string :=
  match e with
  | TypeError m | RangeError m | SyntaxError m | Error m => m
  end.

(** A step that returns or throws. *)
#[global] Instance throws_bind : MBind (sum exn) := λ A B k r,
  match r with
  | inl e => inl e
  | inr x => k x
  end.

(** Values that [JSON.parse] builds, and [undefined], which property
    reads produce. The carrier of numbers (IEEE doubles) is left open. *)
Inductive jsval {number : Type} : Type :=
| VUndefined
| VNull
| VBool (b : bool)
| VNumber (n : number)
| VString (s : string)
| VArray (elems : list jsval)
| VObject (fields : list (string * jsval)).
Arguments jsval : clear implicits.

(** Own data property of an object built by [JSON.parse]. *)
Fixpoint own_property {A : Type} (k : string) (fields : list (string * A))
  : option A :=
  match fields with
  | [] => None
  | (k', v) :: rest => if String.eqb k k' then Some v else own_property k rest
  end.

(** [v.k] for a key [k] that no prototype defines ([type], [networks],
    [ssid], [message]): reading from [undefined] or [null] throws, an
    object gives its own property, everything else [undefined]. *)
Definition Get {number} (v : jsval number) (k : string) : exn + jsval number :=
  match v with
  | VUndefined => inl (TypeError ("Cannot read properties of undefined (reading '" +:+ k +:+ "')"))
  | VNull => inl (TypeError ("Cannot read properties of null (reading '" +:+ k +:+ "')"))
  | VObject fields => inr (default VUndefined (own_property k fields))
  | _ => inr VUndefined
  end.

(** [x === 'literal']: only a string equal to the literal. *)
Definition strict_eq_string {number} (v : jsval number) (lit : string) : bool :=
  match v with
  | VString s => String.eqb s lit
  | _ => false
  end.

(** *** Arrays with holes

    [None] is a hole (or a slot that reads as [undefined]); the length
    of the list is the array's [length]. *)
Abbreviation Array A := (list (option A)) (only parsing).

(** [a[i] = x] for an index [i]: in range it overwrites, past the end
    the array grows and the slots in between are holes. *)
Definition array_set {A} (a : Array A) (i : nat) (x : A) : Array A :=
  if decide (i < length a) then <[i := Some x]> a
  else a ++ replicate (i - length a) None ++ [Some x].

(** [a[k] = x] where [k] is a byte read from a typed array, or
    [undefined] when the read was out of bounds: the key "undefined" is
    not an index, the assignment creates a named property that no
    array method visits, and the elements stay as they are. *)
Definition array_put {A} (a : Array A) (k : option nat) (x : A) : Array A :=
  match k with
  | Some i => array_set a i x
  | None => a
  end.

(** [a[i]] read back: [undefined] ([None]) for a hole and past the end. *)
Definition array_get {A} (a : Array A) (i : nat) : option A := a !! i ≫= id.

(** The elements [filter] and [reduce] visit: holes are skipped. *)
Definition array_present {A} (a : Array A) : list A := omap id a.

(** [a.filter(p)] *)
Definition array_filter {A} (p : A → bool) (a : Array A) : list A :=
  List.filter p (array_present a).

(** [a.reduce(f, init)] *)
Definition array_reduce {A B} (f : B → A → B) (init : B) (a : Array A) : B :=
  foldl f init (array_present a).

(** [new Uint8Array(n)]: [n] zero bytes. *)
Definition Uint8Array_new (n : nat) : Uint8Array := replicate n x00.

(** [target.set(source, offset)]. The iterator of [for ... of] hands
    [undefined] for a hole, and [set] then throws a [TypeError]; a
    source that does not fit throws a [RangeError]. *)
Definition Uint8Array_set (target : Uint8Array) (source : option Uint8Array)
    (offset : nat) : exn + Uint8Array :=
  match source with
  | None => inl (TypeError "Cannot convert undefined or null to object")
  | Some src =>
      if decide (offset + length src ≤ length target)
      then inr (take offset target ++ src ++ drop (offset + length src) target)
      else inl (RangeError "offset is out of bounds")
  end.

End JS.

Import JS.

(** ** The browser interface *)

(** What the page gets from the browser and from its UI layer. The chart
    and DOM handlers are known here by whether they return or throw. *)
Class Browser : Type := {
  number : Type;
  Number_toString : number → string;
  TextDecoder_decode : Uint8Array → string;
  TextEncoder_encode : string → Uint8Array;
  JSON_parse : string → exn + jsval number;
  JSON_stringify : jsval number → option string;
  characteristic : Type;
  writeValue : characteristic → Uint8Array → option exn;
  displayNetworks : jsval number → option exn;
  updateSignal : jsval number → option exn;
  displayChannels : jsval number → option exn
}.

(** ** Effects: a trace of events and a completion *)

(** The text of each [log] call of the protocol core, one constructor per
    template, with the interpolated values as arguments. *)
Inductive log_message : Type :=
| ChunkRecu (index1 : option nat) (total : option nat) (bytes : nat)
    (* `Chunk ${chunkIndex + 1}/${totalChunks} reçu (${chunkData.length} bytes)`;
       [index1 = None] is NaN, [total = None] is undefined *)
| ErreurJSON (m : string)        (* `Erreur JSON: ${e.message}` *)
| Recu (type : string)           (* `Reçu: ${response.type}` *)
| ConnexionVerifiee              (* 'Connexion vérifiée' *)
| Monitoring (ssid : string)     (* `Monitoring: ${response.ssid}` *)
| MonitoringArrete               (* 'Monitoring arrêté' *)
| Erreur (m : string)            (* `Erreur: ${response.message}` *)
| NonConnecte                    (* 'Non connecté' *)
| Envoi (data : string).         (* `Envoi: ${data}` *)

Section Effects.
Context `{Browser}.

Inductive event : Type :=
| Log (m : log_message) (type : string)
| DisplayNetworks (networks : jsval number)
| UpdateSignal (data : jsval number)
| DisplayChannels (data : jsval number)
| WriteValue (c : characteristic) (bytes : Uint8Array).

(** A computation: the events it produced, then either the exception
    that left it or its result. *)
Definition Out (A : Type) : Type := list event * (exn + A).

Definition ret {A} (x : A) : Out A := ([], inr x).

Definition throw {A} (e : exn) : Out A := ([], inl e).

Definition bind {A B} (m : Out A) (k : A → Out B) : Out B :=
  match m.2 with
  | inl e => (m.1, inl e)
  | inr x => (m.1 ++ (k x).1, (k x).2)
  end.

(** A pure step that may throw. *)
Definition lift {A} (r : exn + A) : Out A := ([], r).

(** A call into the outside: the event, then the callee's completion. *)
Definition call (ev : event) (completion : option exn) : Out unit :=
  ([ev], match completion with Some e => inl e | None => inr () end).

(** [log(message, type)], lines 57-67: only touches the log panel. *)
Definition log (m : log_message) (type : string) : Out unit :=
  call (Log m type) None.

(** [try { body } catch (e) { handler(e) }] *)
Definition try_catch {A} (body : Out A) (handler : exn → Out A) : Out A :=
  match body.2 with
  | inl e => (body.1 ++ (handler e).1, (handler e).2)
  | inr x => body
  end.

End Effects.

#[global] Instance out_ret `{Browser} : MRet Out := λ A x, ret x.
#[global] Instance out_bind `{Browser} : MBind Out := λ A B k m, bind m k.

(** ** The dispatcher and the command writer *)

Section App.
Context `{Browser}.

(** String conversion inside a template literal, for the values
    [JSON.parse] builds. An array joins its elements with commas, where
    [null] and [undefined] give the empty string. An object has no
    callable [toString] of its own, so it prints through
    [Object.prototype.toString], unless an own property named [toString]
    hides that one: then nothing converts it and a [TypeError] is
    thrown. *)
Fixpoint ToString (v : jsval number) : exn + string :=
  match v with
  | VUndefined => inr "undefined"
  | VNull => inr "null"
  | VBool b => inr (if b then "true" else "false")
  | VNumber n => inr (Number_toString n)
  | VString s => inr s
  | VArray elems =>
      (fix join (l : list (jsval number)) : exn + string :=
         match l with
         | [] => inr ""
         | x :: rest =>
             match (match x with
                    | VUndefined | VNull => inr ""
                    | _ => ToString x
                    end) with
             | inl e => inl e
             | inr s =>
                 match rest with
                 | [] => inr s
                 | _ => match join rest with
                        | inl e => inl e
                        | inr r => inr (s +:+ "," +:+ r)
                        end
                 end
             end
         end) elems
  | VObject fields =>
      match own_property "toString" fields with
      | Some _ => inl (TypeError "Cannot convert object to primitive value")
      | None => inr "[object Object]"
      end
  end.

(** The [case] clauses of the [switch] in [handleResponse], in source
    order. *)
Inductive handler : Type :=
| Pong | ScanResult | Signal | Channels
| MonitorStarted | MonitorStopped | ErrorMessage.

Definition cases : list handler :=
  [Pong; ScanResult; Signal; Channels; MonitorStarted; MonitorStopped;
   ErrorMessage].

Definition case_label (h : handler) : string :=
  match h with
  | Pong => "pong"
  | ScanResult => "scan_result"
  | Signal => "signal"
  | Channels => "channels"
  | MonitorStarted => "monitor_started"
  | MonitorStopped => "monitor_stopped"
  | ErrorMessage => "error"
  end.

(** The statements of each clause, up to its [break]. *)
Definition case_body (h : handler) (response : jsval number) : Out unit :=
  match h with
  | Pong => log ConnexionVerifiee "success"
  | ScanResult =>
      networks ← lift (Get response "networks");
      call (DisplayNetworks networks) (displayNetworks networks)
  | Signal => call (UpdateSignal response) (updateSignal response)
  | Channels => call (DisplayChannels response) (displayChannels response)
  | MonitorStarted =>
      ssid ← lift (Get response "ssid" ≫= ToString);
      log (Monitoring ssid) "success"
  | MonitorStopped => log MonitoringArrete ""
  | ErrorMessage =>
      m ← lift (Get response "message" ≫= ToString);
      log (Erreur m) "error"
  end.

(** [switch (v) { case ...: ...; break; ... }] without [default]: the
    first clause whose label is strictly equal to [v] runs, and none if
    there is no such clause. *)
Definition switch (v : jsval number) (response : jsval number) : Out unit :=
  match List.find (λ h, strict_eq_string v (case_label h)) cases with
  | Some h => case_body h response
  | None => ret ()
  end.

(** [handleResponse], lines 200-232. *)
Definition handleResponse (response : jsval number) : Out unit :=
  type ← lift (Get response "type" ≫= ToString);
  log (Recu type) "";;
  discriminant ← lift (Get response "type");
  switch discriminant response.

(** [sendCommand], lines 142-153. [commandChar] is [null] ([None]) until
    [connect] has stored the characteristic. The function is [async]:
    an exception in the result is the rejection of the promise it
    returns. [JSON.stringify] gives [undefined] ([None]) for a value
    that has no JSON text; the template prints it as "undefined" and
    [encode] takes it as its default, the empty string. *)
Definition sendCommand (commandChar : option characteristic)
    (cmd : jsval number) : Out unit :=
  match commandChar with
  | None => log NonConnecte "error"
  | Some c =>
      let data := JSON_stringify cmd in
      log (Envoi (default "undefined" data)) "";;
      let bytes := TextEncoder_encode (default "" data) in
      call (WriteValue c bytes) (writeValue c bytes)
  end.

(** ** The reassembler *)

(** The globals under "Chunking state", lines 21-23. *)
Record Chunking : Type := {
  chunks : Array Uint8Array;
  expectedChunks : option nat   (* a number, or [None] for undefined *)
}.

(** [let chunks = []; let expectedChunks = 0;] *)
Definition idle : Chunking := {| chunks := []; expectedChunks := Some 0 |}.

(** The loop of lines 178-182: each slot of [chunks], holes included, is
    copied into [fullData] at [offset]. *)
Fixpoint copy_chunks (cs : Array Uint8Array) (fullData : Uint8Array)
    (offset : nat) : exn + Uint8Array :=
  match cs with
  | [] => inr fullData
  | chunk :: rest =>
      fullData' ← Uint8Array_set fullData chunk offset;
      copy_chunks rest fullData' (offset + length (default [] chunk))
  end.

(** Lines 177-182. *)
Definition reassemble (cs : Array Uint8Array) : exn + Uint8Array :=
  let fullData :=
    Uint8Array_new (array_reduce (λ acc c, acc + length c) 0 cs) in
  copy_chunks cs fullData 0.

(** Lines 184-192: decode the bytes as text, parse and dispatch; the
    [catch] takes what [JSON.parse] or [handleResponse] throws. *)
Definition deliver (fullData : Uint8Array) : Out unit :=
  let data := TextDecoder_decode fullData in
  try_catch
    (response ← lift (JSON_parse data); handleResponse response)
    (λ e, log (ErreurJSON (message e)) "error").

(** Lines 159-171: the header, the log line, the reset on index 0 and
    the store. Reading past the end of [value] gives [undefined]. The
    log line is written before the globals change and cannot fail, so
    the trace is the same with [store] taken first. *)
Definition chunkIndex (value : Uint8Array) : option nat :=
  Byte.to_nat <$> value !! 0.

Definition totalChunks (value : Uint8Array) : option nat :=
  Byte.to_nat <$> value !! 1.

Definition chunkData (value : Uint8Array) : Uint8Array := drop 2 value.

(** Line 163. *)
Definition chunk_line (value : Uint8Array) : Out unit :=
  log (ChunkRecu (S <$> chunkIndex value) (totalChunks value)
         (length (chunkData value))) "".

Definition store (value : Uint8Array) (st : Chunking) : Chunking :=
  let st1 :=
    if bool_decide (chunkIndex value = Some 0)
    then {| chunks := []; expectedChunks := totalChunks value |}
    else st in
  {| chunks := array_put (chunks st1) (chunkIndex value) (chunkData value);
     expectedChunks := expectedChunks st1 |}.

(** Lines 174-175: [receivedCount === expectedChunks]. Every stored
    element is a [Uint8Array], so the filter keeps all that it visits. *)
Definition receivedCount (st : Chunking) : nat :=
  length (array_filter (λ c, true) (chunks st)).

Definition complete (st : Chunking) : bool :=
  bool_decide (expectedChunks st = Some (receivedCount st)).

(** [onResponse], lines 155-198, on the bytes of the notification: the
    globals afterwards, and the trace and completion of the call. An
    exception leaves the globals as they were when it was thrown. *)
Definition onResponse (value : Uint8Array) (st : Chunking)
    : Chunking * Out unit :=
  let st' := store value st in
  if complete st' then
    match reassemble (chunks st') with
    | inl e => (st', chunk_line value;; throw e)
    | inr fullData => (idle, chunk_line value;; deliver fullData)
    end
  else (st', chunk_line value).

(** The handler runs once per notification, in arrival order; an
    exception ends one call and the next event is handled all the same.
    The result lists the completion of every call. *)
Fixpoint onResponses (values : list Uint8Array) (st : Chunking)
    : Chunking * list (Out unit) :=
  match values with
  | [] => (st, [])
  | value :: rest =>
      let '(st', out) := onResponse value st in
      let '(st'', outs) := onResponses rest st' in
      (st'', out :: outs)
  end.

End App.

(** ** The sender's side of the wire format *)

Section Wire.
Context `{Browser}.

(** The byte with a given value; header fields are below 256. *)
Definition byte_of (n : nat) : byte := default x00 (Byte.of_nat n).

(** One notification: byte 0 the index, byte 1 the total, then the
    payload slice. *)
Definition fragment (index total : nat) (payload : Uint8Array) : Uint8Array :=
  byte_of index :: byte_of total :: payload.

(** The fragments of a message cut into [payloads], in the order
    [order] of their indices. *)
Definition fragments (payloads : list Uint8Array) (order : list nat)
    : list Uint8Array :=
  (λ i, fragment i (length payloads) (payloads !!! i)) <$> order.

(** The invariant of the data model: both header bytes are there and
    [index < total]. *)
Definition well_formed (value : Uint8Array) : Prop :=
  ∃ i t, chunkIndex value = Some i ∧ totalChunks value = Some t ∧ i < t.

(** The reassembler holds exactly the slices with index in [arrived] of
    the message cut into [payloads], and waits for the others. *)
Definition buffered (payloads : list Uint8Array) (arrived : list nat)
    (st : Chunking) : Prop :=
  expectedChunks st = Some (length payloads)
  ∧ length (chunks st) ≤ length payloads
  ∧ receivedCount st = length arrived
  ∧ ∀ i, array_get (chunks st) i
         = if decide (i ∈ arrived) then payloads !! i else None.

(** What a run of [onResponse] over [values] answers when every call
    only buffers, except the last one, which goes on to deliver
    [message]. *)
Definition buffered_then_delivered (values : list Uint8Array)
    (message : Uint8Array) : list (Out unit) :=
  imap (λ i value,
          if decide (S i = length values)
          then (chunk_line value;; deliver message)
          else chunk_line value) values.

End Wire.

(** ** States of the reassembler between messages *)

Section Streams.

(** The header of [value] is in range for the globals [st]: an index 0
    with a total of at least 1, or another index below the expected
    count. The total byte of a later fragment is never read. *)
Definition in_range_header (value : Uint8Array) (st : Chunking) : Prop :=
  ∃ i t, chunkIndex value = Some i ∧ i < t
         ∧ if decide (i = 0) then totalChunks value = Some t
           else expectedChunks st = Some t.

(** The array is no longer than the expected count. *)
Definition within_expected (st : Chunking) : Prop :=
  ∃ t, expectedChunks st = Some t ∧ length (chunks st) ≤ t.

(** The count test cannot pass any more: the expected count is
    [undefined], or already exceeded. *)
Definition stalled (st : Chunking) : Prop :=
  match expectedChunks st with
  | Some t => t < receivedCount st
  | None => True
  end.

(** A fragment that does not start a message. *)
Definition continuation (value : Uint8Array) : Prop :=
  ∃ i, chunkIndex value = Some i ∧ i ≠ 0.

(** The slices of a message with their headers, in index order. *)
Definition in_order (payloads : list Uint8Array) : list Uint8Array :=
  fragments payloads (seq 0 (length payloads)).

End Streams.

(** ** A small browser to run the model on *)

Module Sample.

(** The double quote. *)
Definition quote : string := String (Ascii.ascii_of_nat 34) "".

Definition type_prefix : string :=
  "{" +:+ quote +:+ "type" +:+ quote +:+ ":" +:+ quote.

Definition type_suffix : string := quote +:+ "}".

(** A parser for the texts [{"type":"..."}] alone; every other text is
    a syntax error. *)
Definition parse (text : string) : exn + jsval Empty_set :=
  let n := String.length text in
  let p := String.length type_prefix in
  let q := String.length type_suffix in
  if String.prefix type_prefix text
     && String.eqb (String.substring (n - q) q text) type_suffix
     && bool_decide (p + q ≤ n)
  then inr (VObject [("type", VString (String.substring p (n - p - q) text))])
  else inl (SyntaxError "Unexpected token").

(** Bytes are read as Latin-1 characters, numbers do not occur, every
    command is written as [null], the UI handlers return, and a write
    succeeds. *)
#[local] Instance browser : Browser := {|
  number := Empty_set;
  Number_toString := λ n, match n with end;
  TextDecoder_decode := String.string_of_list_byte;
  TextEncoder_encode := String.list_byte_of_string;
  JSON_parse := parse;
  JSON_stringify := λ v, match v with VUndefined => None | _ => Some "null" end;
  characteristic := unit;
  writeValue := λ _ _, None;
  displayNetworks := λ _, None;
  updateSignal := λ _, None;
  displayChannels := λ _, None
|}.

(** The two halves of the text [{"type":"pong"}]. *)
Definition A : Uint8Array :=
  String.list_byte_of_string ("{" +:+ quote +:+ "typ").

Definition B : Uint8Array :=
  String.list_byte_of_string
    ("e" +:+ quote +:+ ":" +:+ quote +:+ "pong" +:+ quote +:+ "}").

(** A payload that is not JSON. *)
Definition garbage : Uint8Array := String.list_byte_of_string "not json".

End Sample.

(** ** A browser whose network list handler checks its argument *)

Module Strict.

(** As [Sample.browser], except that [displayNetworks] throws when it is
    not given an array, as [networks.forEach] does. *)
#[local] Instance browser : Browser := {|
  number := Empty_set;
  Number_toString := λ n, match n with end;
  TextDecoder_decode := String.string_of_list_byte;
  TextEncoder_encode := String.list_byte_of_string;
  JSON_parse := Sample.parse;
  JSON_stringify := λ v, match v with VUndefined => None | _ => Some "null" end;
  characteristic := unit;
  writeValue := λ _ _, None;
  displayNetworks := λ networks,
    match networks with
    | VArray _ => None
    | _ => Some (TypeError "networks.forEach is not a function")
    end;
  updateSignal := λ _, None;
  displayChannels := λ _, None
|}.

(** The text [{"type":"scan_result"}]: a scan result without its list. *)
Definition scan_without_networks : Uint8Array :=
  String.list_byte_of_string
    (Sample.type_prefix +:+ "scan_result" +:+ Sample.type_suffix).

End Strict.

(** ** The log panel *)

Module Dom.
Section Panel.
Context {M : Type}.

(** A child node of the log panel: an entry made by [log], or a text
    node of the page's markup. An entry keeps the class name, the time
    string and the message that make up its text
    [`[${time}] ${message}`]. *)
Inductive node : Type :=
| Entry (className : string) (time : string) (message : M)
| TextNode (data : string).

Definition is_element (n : node) : bool :=
  match n with
  | Entry _ _ _ => true
  | TextNode _ => false
  end.

(** [logDiv.children.length]: element children only. *)
Definition children_length (nodes : list node) : nat :=
  length (List.filter is_element nodes).

(** The loop of lines 64-66, at most [fuel] times around:
    [while (logDiv.children.length > 50) logDiv.removeChild(logDiv.lastChild)]. *)
Fixpoint trim (fuel : nat) (nodes : list node) : list node :=
  match fuel with
  | 0 => nodes
  | S fuel' =>
      if decide (50 < children_length nodes)
      then trim fuel' (removelast nodes)
      else nodes
  end.

(** [log(message, type)], lines 57-67, on the child nodes of the panel;
    [now] is what [new Date().toLocaleTimeString()] gives at the call.
    The new entry goes before the first child. One turn of the loop
    removes one node, so as many turns as there are nodes are enough. *)
Definition log (now : string) (message : M) (type : string)
    (logDiv : list node) : list node :=
  let entry := Entry ("log-entry " +:+ type) now message in
  let nodes := entry :: logDiv in
  trim (length nodes) nodes.

(** Calls of [log] one after the other, each with its clock reading. *)
Definition logs (calls : list (string * M * string)) (logDiv : list node)
    : list node :=
  foldl (λ nodes '(now, message, type), log now message type nodes)
    logDiv calls.

(** The entry a call makes. *)
Definition entry_of (call : string * M * string) : node :=
  let '(now, message, type) := call in
  Entry ("log-entry " +:+ type) now message.

End Panel.
Arguments node : clear implicits.
End Dom.

(** ** Signal strength *)

Module Signal.

(** [rssiToStrength], lines 287-292, for a whole number of dBm. *)
Definition rssiToStrength (rssi : Z) : Z :=
  if decide (rssi >= -50)%Z then 4%Z
  else if decide (rssi >= -60)%Z then 3%Z
  else if decide (rssi >= -70)%Z then 2%Z
  else 1%Z.

(** One bar: [`<div class="signal-bar ${active ? 'active' : ''}"></div>`]. *)
Definition signal_bar (active : bool) : string :=
  "<div class=" +:+ Sample.quote +:+ "signal-bar "
  +:+ (if active then "active" else "") +:+ Sample.quote +:+ "></div>".

(** [getSignalBars], lines 278-285: the loop runs [i] over 1, 2, 3, 4. *)
Definition getSignalBars (rssi : Z) : string :=
  let strength := rssiToStrength rssi in
  let bars :=
    foldl (λ bars i, bars +:+ signal_bar (bool_decide (i ≤ strength)%Z))
      "" [1; 2; 3; 4]%Z in
  "<div class=" +:+ Sample.quote +:+ "signal-bars" +:+ Sample.quote +:+ ">"
  +:+ bars +:+ "</div>".

End Signal.

(** ** The page: elements, globals and the functions around the core *)

Module Page.

(** *** Elements *)

(** What the code reads and writes of an element: its class tokens
    ([className] is the tokens joined by spaces), its text and, for a
    button, whether it is disabled. *)
Record Element : Type := {
  classList : list string;
  textContent : string;
  disabled : bool
}.

(** [e.classList.add(token)]: a token already there is not added again. *)
Definition classList_add (token : string) (e : Element) : Element :=
  {| classList := if decide (token ∈ classList e) then classList e
                  else classList e ++ [token];
     textContent := textContent e;
     disabled := disabled e |}.

(** [e.classList.remove(token)] *)
Definition classList_remove (token : string) (e : Element) : Element :=
  {| classList := filter (λ c, c ≠ token) (classList e);
     textContent := textContent e;
     disabled := disabled e |}.

(** [e.className = '...']: the tokens of the string replace the list. *)
Definition set_className (tokens : list string) (e : Element) : Element :=
  {| classList := tokens; textContent := textContent e;
     disabled := disabled e |}.

(** [e.textContent = text] *)
Definition set_textContent (text : string) (e : Element) : Element :=
  {| classList := classList e; textContent := text; disabled := disabled e |}.

(** [e.disabled = b] *)
Definition set_disabled (b : bool) (e : Element) : Element :=
  {| classList := classList e; textContent := textContent e; disabled := b |}.

(** The element constants of lines 26-38 that the modelled functions
    use; [statusText] is [connectionStatus.querySelector('.text')]. The
    page is taken to have them all. *)
Inductive id : Type :=
| connectionStatus | statusText | connectBtn | controlsSection
| scanBtn | channelsBtn | networksSection | monitorSection
| monitorSsid | currentRssi | channelsSection.

#[global] Instance id_eq_dec : EqDecision id.
Proof. solve_decision. Defined.

(** The state of every element. *)
Definition Dom : Type := id → Element.

(** A statement that changes one element. *)
Definition update (i : id) (f : Element → Element) (dom : Dom) : Dom :=
  λ j, if decide (j = i) then f (dom j) else dom j.

(** [setConnected], lines 123-139. *)
Definition setConnected (connected : bool) (dom : Dom) : Dom :=
  if connected then
    let dom := update connectionStatus (set_className ["status"; "connected"]) dom in
    let dom := update statusText (set_textContent "Connecté") dom in
    let dom := update connectBtn (set_textContent "Connecté") dom in
    update controlsSection (classList_remove "hidden") dom
  else
    let dom := update connectionStatus (set_className ["status"; "disconnected"]) dom in
    let dom := update statusText (set_textContent "Déconnecté") dom in
    let dom := update connectBtn (set_textContent "Connecter au Pi") dom in
    let dom := update connectBtn (set_disabled false) dom in
    let dom := update controlsSection (classList_add "hidden") dom in
    let dom := update networksSection (classList_add "hidden") dom in
    let dom := update monitorSection (classList_add "hidden") dom in
    update channelsSection (classList_add "hidden") dom.

(** *** The Bluetooth, date and chart interfaces *)

(** Each asynchronous call of the Web Bluetooth API is known by how it
    settles. A [Date] is built from a primitive value; formatting one
    and redrawing the chart are the browser's and the chart library's. *)
Class Platform `{Browser} : Type := {
  Device : Type;
  Server : Type;
  Service : Type;
  bluetooth : bool;    (* [navigator.bluetooth] is there *)
  requestDevice : exn + Device;
  device_name : Device → option string;    (* [null] is [None] *)
  device_id : Device → string;
  gatt_connect : Device → exn + Server;
  getPrimaryService : Server → string → exn + Service;
  getCharacteristic : Service → string → exn + characteristic;
  startNotifications : characteristic → option exn;
  Date : Type;
  Date_of : jsval number → Date;
  toLocaleTimeString : Date → string;
  Chart_update : list string → list (jsval number) → option exn
}.

Section Functions.
Context `{Platform}.

(** Lines 7-9. *)
Definition SERVICE_UUID : string := "a1b2c3d4-0001-1000-8000-00805f9b34fb".
Definition COMMAND_UUID : string := "a1b2c3d4-0002-1000-8000-00805f9b34fb".
Definition RESPONSE_UUID : string := "a1b2c3d4-0003-1000-8000-00805f9b34fb".

(** Line 19. *)
Definition MAX_SIGNAL_POINTS : nat := 30.

(** An element of [signalData]: [{ time, rssi }]. *)
Record Point : Type := { time : Date; rssi : jsval number }.

(** The globals of lines 12-18 that the modelled functions use, the
    labels and the data of the signal chart, which [initCharts] is taken
    to have created, and the elements. *)
Record State : Type := {
  dom : Dom;
  device : option Device;
  server : option Server;
  commandChar : option characteristic;
  responseChar : option characteristic;
  signalData : list Point;
  chart_labels : list string;
  chart_data : list (jsval number)
}.

Definition set_dom (f : Dom → Dom) (p : State) : State :=
  {| dom := f (dom p); device := device p; server := server p;
     commandChar := commandChar p; responseChar := responseChar p;
     signalData := signalData p; chart_labels := chart_labels p;
     chart_data := chart_data p |}.

Definition set_device (d : option Device) (p : State) : State :=
  {| dom := dom p; device := d; server := server p;
     commandChar := commandChar p; responseChar := responseChar p;
     signalData := signalData p; chart_labels := chart_labels p;
     chart_data := chart_data p |}.

Definition set_server (s : option Server) (p : State) : State :=
  {| dom := dom p; device := device p; server := s;
     commandChar := commandChar p; responseChar := responseChar p;
     signalData := signalData p; chart_labels := chart_labels p;
     chart_data := chart_data p |}.

Definition set_commandChar (c : option characteristic) (p : State) : State :=
  {| dom := dom p; device := device p; server := server p;
     commandChar := c; responseChar := responseChar p;
     signalData := signalData p; chart_labels := chart_labels p;
     chart_data := chart_data p |}.

Definition set_responseChar (c : option characteristic) (p : State) : State :=
  {| dom := dom p; device := device p; server := server p;
     commandChar := commandChar p; responseChar := c;
     signalData := signalData p; chart_labels := chart_labels p;
     chart_data := chart_data p |}.

Definition set_signalData (points : list Point) (p : State) : State :=
  {| dom := dom p; device := device p; server := server p;
     commandChar := commandChar p; responseChar := responseChar p;
     signalData := points; chart_labels := chart_labels p;
     chart_data := chart_data p |}.

Definition set_chart (labels : list string) (data : list (jsval number))
    (p : State) : State :=
  {| dom := dom p; device := device p; server := server p;
     commandChar := commandChar p; responseChar := responseChar p;
     signalData := signalData p; chart_labels := labels;
     chart_data := data |}.

(** *** Effects *)

(** The texts of the [log] calls outside the protocol core. *)
Inductive notice : Type :=
| NonSupporte           (* 'Web Bluetooth non supporté. Utilisez Bluefy sur iOS.' *)
| Recherche             (* 'Recherche du Pi...' *)
| AppareilTrouve (name : string)    (* `Appareil trouvé: ${device.name || device.id}` *)
| ServeurGATT           (* 'Connecté au serveur GATT' *)
| ServiceTrouve         (* 'Service PiWiFi trouvé' *)
| Caracteristiques      (* 'Caractéristiques connectées' *)
| Deconnecte            (* 'Déconnecté du Pi' *)
| ScanEnCours.          (* 'Scan en cours...' *)

(** The two functions handed to [setTimeout]. *)
Inductive callback : Type := RearmScan | RearmChannels.

(** What a function of the page does to the outside, in order. [Core]
    carries the events of the protocol core: the log lines it shares
    with it and the write of [sendCommand]. *)
Inductive call : Type :=
| Core (e : event)
| Say (m : notice) (type : string)
| RequestDevice
| ListenDisconnected (d : Device)
| GattConnect (d : Device)
| GetPrimaryService (s : Server) (uuid : string)
| GetCharacteristic (s : Service) (uuid : string)
| StartNotifications (c : characteristic)
| ListenValueChanged (c : characteristic)
| ChartUpdate (labels : list string) (data : list (jsval number))
| SetTimeout (f : callback) (delay : nat).

(** A function of the page: from the state before to the state after,
    the calls made and the completion. An exception keeps the state
    reached when it was thrown. *)
Definition Act (A : Type) : Type := State → State * (list call * (exn + A)).

Definition act_ret {A} (x : A) : Act A := λ p, (p, ([], inr x)).

Definition act_bind {A B} (m : Act A) (k : A → Act B) : Act B := λ p,
  match m p with
  | (p1, (calls1, inl e)) => (p1, (calls1, inl e))
  | (p1, (calls1, inr x)) =>
      match k x p1 with
      | (p2, (calls2, r)) => (p2, (calls1 ++ calls2, r))
      end
  end.

(** A statement that changes the state. *)
Definition modify (f : State → State) : Act unit := λ p, (f p, ([], inr ())).

(** Reading a global. *)
Definition read {A} (f : State → A) : Act A := λ p, (p, ([], inr (f p))).

(** A call into the outside and how it settles. *)
Definition await {A} (c : call) (settled : exn + A) : Act A :=
  λ p, (p, ([c], settled)).

(** A pure step that may throw. *)
Definition attempt {A} (r : exn + A) : Act A := λ p, (p, ([], r)).

(** A function of the protocol core, which leaves the state alone. *)
Definition core {A} (o : Out A) : Act A := λ p, (p, (Core <$> o.1, o.2)).

(** [log] with a text of the page. *)
Definition say (m : notice) (type : string) : Act unit :=
  await (Say m type) (inr ()).

(** [try { body } catch (e) { handler(e) }] *)
Definition act_try_catch {A} (body : Act A) (handler : exn → Act A) : Act A :=
  λ p,
  match body p with
  | (p1, (calls1, inl e)) =>
      match handler e p1 with
      | (p2, (calls2, r)) => (p2, (calls1 ++ calls2, r))
      end
  | (p1, (calls1, inr x)) => (p1, (calls1, inr x))
  end.


End Functions.

#[global] Instance act_mret `{Platform} : MRet Act := λ A x, act_ret x.
#[global] Instance act_mbind `{Platform} : MBind Act :=
  λ A B k m, act_bind m k.

Section Code.
Context `{Platform}.

(** [sendCommand(cmd)] as the page calls it: [commandChar] is read when
    the call is made. *)
Definition send (cmd : jsval number) : Act unit :=
  c ← read commandChar;
  core (sendCommand c cmd).

(** [{ cmd: name }] *)
Definition command (name : string) : jsval number :=
  VObject [("cmd", VString name)].

(** [device.name || device.id]: a name that is [null] or empty gives
    way to the id. *)
Definition name_or_id (d : Device) : string :=
  match device_name d with
  | Some name => if decide (name = "") then device_id d else name
  | None => device_id d
  end.

(** [connect], lines 70-116. A global is assigned when the promise it
    waits for has resolved. The function is followed from its call to
    its end; what other handlers of the page do while it waits is not
    part of it. *)
Definition connect : Act unit :=
  if negb bluetooth then say NonSupporte "error"
  else
    act_try_catch
      (modify (set_dom (update connectBtn (set_disabled true)));;
       modify (set_dom (update connectBtn (set_textContent "Connexion...")));;
       say Recherche "";;
       d ← await RequestDevice requestDevice;
       modify (set_device (Some d));;
       await (ListenDisconnected d) (inr ());;
       say (AppareilTrouve (name_or_id d)) "";;
       s ← await (GattConnect d) (gatt_connect d);
       modify (set_server (Some s));;
       say ServeurGATT "";;
       service ← await (GetPrimaryService s SERVICE_UUID)
                   (getPrimaryService s SERVICE_UUID);
       say ServiceTrouve "";;
       c ← await (GetCharacteristic service COMMAND_UUID)
             (getCharacteristic service COMMAND_UUID);
       modify (set_commandChar (Some c));;
       r ← await (GetCharacteristic service RESPONSE_UUID)
             (getCharacteristic service RESPONSE_UUID);
       modify (set_responseChar (Some r));;
       await (StartNotifications r)
         (match startNotifications r with
          | Some e => inl e
          | None => inr ()
          end);;
       await (ListenValueChanged r) (inr ());;
       say Caracteristiques "success";;
       modify (set_dom (setConnected true));;
       send (command "ping"))
      (λ e,
         core (log (Erreur (message e)) "error");;
         modify (set_dom (setConnected false))).

(** [onDisconnected], lines 118-121. *)
Definition onDisconnected : Act unit :=
  say Deconnecte "error";;
  modify (set_dom (setConnected false)).




(** [updateSignalChart], lines 424-430. *)
Definition updateSignalChart : Act unit :=
  points ← read signalData;
  let labels := (λ d, toLocaleTimeString (time d)) <$> points in
  let data := rssi <$> points in
  modify (set_chart labels data);;
  await (ChartUpdate labels data)
    (match Chart_update labels data with
     | Some e => inl e
     | None => inr ()
     end).

(** Assigning a value to [textContent], a nullable string: [null] and
    [undefined] give the empty text, anything else is converted to a
    string. *)
Definition text_of (v : jsval number) : exn + string :=
  match v with
  | VNull | VUndefined => inr ""
  | _ => ToString v
  end.

(** [new Date(v)]: an array or an object is first converted to a
    primitive, which goes through its string conversion. *)
Definition Date_new (v : jsval number) : exn + Date :=
  match v with
  | VArray _ | VObject _ => s ← ToString v; inr (Date_of (VString s))
  | _ => inr (Date_of v)
  end.

(** The object literal of lines 312-315:
    [{ time: new Date(data.timestamp), rssi: data.rssi }]. *)
Definition point_of (data : jsval number) : exn + Point :=
  timestamp ← Get data "timestamp";
  t ← Date_new timestamp;
  r ← Get data "rssi";
  inr {| time := t; rssi := r |}.

(** The text of line 310: [`${data.rssi} dBm`]. *)
Definition reading_of (data : jsval number) : exn + string :=
  r ← Get data "rssi";
  s ← ToString r;
  inr (s +:+ " dBm").

(** [signalData.push(point); if (signalData.length > MAX_SIGNAL_POINTS)
    signalData.shift();] *)
Definition push_point (point : Point) (points : list Point) : list Point :=
  let points := points ++ [point] in
  if decide (MAX_SIGNAL_POINTS < length points) then drop 1 points
  else points.

(** [updateSignal], lines 309-322. *)
Definition updateSignal (data : jsval number) : Act unit :=
  reading ← attempt (reading_of data);
  modify (set_dom (update currentRssi (set_textContent reading)));;
  point ← attempt (point_of data);
  points ← read signalData;
  modify (set_signalData (push_point point points));;
  updateSignalChart.

(** [startMonitor], lines 295-302. *)
Definition startMonitor (ssid : jsval number) : Act unit :=
  modify (set_dom (update monitorSection (classList_remove "hidden")));;
  text ← attempt (text_of ssid);
  modify (set_dom (update monitorSsid (set_textContent text)));;
  modify (set_signalData []);;
  updateSignalChart;;
  send (VObject [("cmd", VString "monitor"); ("ssid", ssid)]).

(** [stopMonitor], lines 304-307. *)
Definition stopMonitor : Act unit :=
  modify (set_dom (update monitorSection (classList_add "hidden")));;
  send (command "stop").

(** Notifications of type [signal] handled one after the other: the
    state after each call is the state before the next, whether the
    call returned or threw. *)
Definition updateSignals (datas : list (jsval number)) (p : State) : State :=
  foldl (λ p data, (updateSignal data p).1) p datas.

End Code.

End Page.

(** ** A platform to run the page on *)

Module Bench.

(** A device named PiWiFi whose GATT server and service are found and
    whose command characteristic is found; the response characteristic
    is found or not as [response_found] says. Dates are kept as the
    value they were built from and print as "12:00:00"; the chart
    redraws. *)
Definition platform (response_found : bool)
    : Page.Platform (H := Sample.browser) := {|
  Page.Device := unit;
  Page.Server := unit;
  Page.Service := unit;
  Page.bluetooth := true;
  Page.requestDevice := inr ();
  Page.device_name := λ _, Some "PiWiFi";
  Page.device_id := λ _, "id";
  Page.gatt_connect := λ _, inr ();
  Page.getPrimaryService := λ _ _, inr ();
  Page.getCharacteristic := λ _ uuid,
    if decide (uuid = Page.RESPONSE_UUID) then
      if response_found then inr (() : @characteristic Sample.browser)
      else inl (Error "No Characteristics found")
    else inr (() : @characteristic Sample.browser);
  Page.startNotifications := λ _, None;
  Page.Date := jsval Empty_set;
  Page.Date_of := λ v, v;
  Page.toLocaleTimeString := λ _, "12:00:00";
  Page.Chart_update := λ _ _, None
|}.

(** A page as it is loaded: nothing hidden or disabled is assumed, no
    class, no text, and the globals at their initial values. *)
Definition blank : Page.Dom :=
  λ _, {| Page.classList := []; Page.textContent := ""; Page.disabled := false |}.

Definition loaded (response_found : bool)
    : Page.State (H0 := platform response_found) := {|
  Page.dom := blank;
  Page.device := None;
  Page.server := None;
  Page.commandChar := None;
  Page.responseChar := None;
  Page.signalData := [];
  Page.chart_labels := [];
  Page.chart_data := []
|}.

(** A [signal] message: [{ type: "signal", rssi: r, timestamp: t }]. *)
Definition signal (r t : string) : jsval Empty_set :=
  VObject [("type", VString "signal"); ("rssi", VString r);
           ("timestamp", VString t)].

(** The point that message gives on this platform. *)
Definition point (response_found : bool) (r t : string)
    : Page.Point (H0 := platform response_found) :=
  {| Page.time := (VString t : Page.Date (Platform := platform response_found));
     Page.rssi := VString r |}.

End Bench.

(** * Properties *)

(** ** Arrays with holes *)

Section ArrayFacts.
Context {A : Type}.
Implicit Types (a : Array A) (i j : nat) (x : A).

Lemma array_present_cons_Some x a :
  array_present (Some x :: a) = x :: array_present a.
Proof. reflexivity. Qed.

Lemma array_present_cons_None a :
  array_present (None :: a) = array_present a.
Proof. reflexivity. Qed.

Lemma array_get_set a i j x :
  array_get (array_set a i x) j = if decide (i = j) then Some x else array_get a j.
Proof.
  unfold array_get, array_set.
  destruct (decide (i < length a)) as [Hlt|Hge].
  - destruct (decide (i = j)) as [<-|Hne].
    + by rewrite list_lookup_insert_eq.
    + by rewrite list_lookup_insert_ne.
  - destruct (decide (j < length a)) as [Hj|Hj].
    + rewrite lookup_app_l; [|done]. destruct (decide (i = j)); [lia|done].
    + rewrite lookup_app_r; [|lia].
      rewrite (lookup_ge_None_2 a j); [|lia]. simpl.
      destruct (decide (j - length a < i - length a)) as [Hk|Hk].
      * rewrite lookup_app_l; [|by rewrite length_replicate].
        rewrite lookup_replicate_2; [|done]. simpl.
        destruct (decide (i = j)); [lia|done].
      * rewrite lookup_app_r; rewrite length_replicate; [|lia].
        destruct (decide (i = j)) as [<-|Hne].
        -- by rewrite Nat.sub_diag.
        -- destruct (j - length a - (i - length a)) as [|k] eqn:Hk'; [lia|done].
Qed.

Lemma array_set_length a i x :
  length (array_set a i x) = length a `max` S i.
Proof.
  unfold array_set. destruct (decide (i < length a)).
  - rewrite length_insert. lia.
  - rewrite !length_app, length_replicate. simpl. lia.
Qed.

Lemma array_present_app a1 a2 :
  array_present (a1 ++ a2) = array_present a1 ++ array_present a2.
Proof. apply omap_app. Qed.

Lemma array_present_holes n : array_present (replicate n (@None A)) = [].
Proof. induction n as [|n IH]; [done|]. simpl. exact IH. Qed.

Lemma array_present_insert_length a i x :
  i < length a →
  length (array_present (<[i := Some x]> a))
  = match array_get a i with
    | Some _ => length (array_present a)
    | None => S (length (array_present a))
    end.
Proof.
  revert i. induction a as [|o a IH]; intros i Hi; simpl in Hi; [lia|].
  destruct i as [|i].
  - unfold array_get. simpl. by destruct o.
  - change (array_get (o :: a) (S i)) with (array_get a i).
    change (<[S i := Some x]> (o :: a)) with (o :: <[i := Some x]> a).
    specialize (IH i ltac:(lia)).
    destruct o as [y|].
    + change (array_present (Some y :: ?l)) with (y :: array_present l).
      simpl. rewrite IH. by destruct (array_get a i).
    + change (array_present (None :: ?l)) with (array_present l).
      exact IH.
Qed.

(** Storing counts once per index: a slot that was populated is
    overwritten and the count stays, a fresh slot adds one. *)
Lemma array_present_set_length a i x :
  length (array_present (array_set a i x))
  = match array_get a i with
    | Some _ => length (array_present a)
    | None => S (length (array_present a))
    end.
Proof.
  unfold array_set. destruct (decide (i < length a)) as [Hlt|Hge].
  - by apply array_present_insert_length.
  - unfold array_get. rewrite (lookup_ge_None_2 a i); [|lia]. simpl.
    rewrite !array_present_app, array_present_holes. simpl.
    rewrite length_app. simpl. lia.
Qed.

Lemma array_present_length_le a : length (array_present a) ≤ length a.
Proof.
  induction a as [|[x|] a IH]; [done| |].
  - rewrite array_present_cons_Some. simpl. lia.
  - rewrite array_present_cons_None. simpl. lia.
Qed.

(** An array with as many populated slots as its length has no hole. *)
Lemma array_full a :
  length (array_present a) = length a → a = Some <$> array_present a.
Proof.
  induction a as [|[x|] a IH]; [done| |].
  - rewrite array_present_cons_Some. simpl. intros Hlen.
    f_equal. apply IH. lia.
  - rewrite array_present_cons_None. simpl. intros Hlen.
    pose proof (array_present_length_le a). lia.
Qed.

Lemma array_present_Some (l : list A) : array_present (Some <$> l) = l.
Proof.
  induction l as [|x l IH]; [done|].
  rewrite fmap_cons, array_present_cons_Some. by rewrite IH.
Qed.

Lemma array_get_Some (l : list A) i : array_get (Some <$> l) i = l !! i.
Proof.
  unfold array_get. rewrite list_lookup_fmap. by destruct (l !! i).
Qed.

Lemma array_filter_true a : array_filter (λ _, true) a = array_present a.
Proof.
  unfold array_filter. induction (array_present a) as [|x l IH]; [done|].
  simpl. by rewrite IH.
Qed.

End ArrayFacts.

(** ** Concatenation *)

Section ReassembleFacts.
Implicit Types (cs : Array Uint8Array) (ps : list Uint8Array).

Lemma sum_of_lengths ps n :
  foldl (λ acc c, acc + length c) n ps = n + length (concat ps).
Proof.
  revert n. induction ps as [|p ps IH]; intros n; simpl; [lia|].
  rewrite IH, length_app. lia.
Qed.

Lemma Uint8Array_set_fits (written rest src : list byte) :
  length src ≤ length rest →
  Uint8Array_set (written ++ rest) (Some src) (length written)
  = inr ((written ++ src) ++ drop (length src) rest).
Proof.
  intros Hfit. unfold Uint8Array_set.
  rewrite decide_True; [|rewrite length_app; lia].
  rewrite take_app_length, drop_app_add.
  by rewrite <- (assoc_L (++)).
Qed.

Lemma copy_chunks_cons chunk cs (fullData : list byte) offset :
  copy_chunks (chunk :: cs) fullData offset
  = Uint8Array_set fullData chunk offset
    ≫= λ fullData', copy_chunks cs fullData' (offset + length (default [] chunk)).
Proof. reflexivity. Qed.

(** Without holes the loop writes the chunks one after the other. *)
Lemma copy_chunks_full ps (written rest : list byte) :
  length rest = length (concat ps) →
  copy_chunks (Some <$> ps) (written ++ rest) (length written)
  = inr (written ++ concat ps).
Proof.
  revert written rest. induction ps as [|p ps IH]; intros written rest Hlen.
  - simpl in Hlen. apply nil_length_inv in Hlen as ->.
    simpl. by rewrite !app_nil_r.
  - simpl in Hlen. rewrite length_app in Hlen.
    rewrite fmap_cons, copy_chunks_cons.
    rewrite Uint8Array_set_fits; [|lia]. simpl.
    rewrite <- length_app, IH; [|rewrite length_drop; lia].
    by rewrite <- (assoc_L (++)).
Qed.

(** With a hole the loop stops there with a [TypeError]. *)
Lemma copy_chunks_hole cs (written rest : list byte) :
  None ∈ cs →
  length rest = length (concat (array_present cs)) →
  copy_chunks cs (written ++ rest) (length written)
  = inl (TypeError "Cannot convert undefined or null to object").
Proof.
  revert written rest. induction cs as [|[p|] cs IH]; intros written rest Hin Hlen.
  - by apply elem_of_nil in Hin.
  - apply elem_of_cons in Hin as [?|Hin]; [done|].
    rewrite array_present_cons_Some in Hlen. simpl in Hlen.
    rewrite length_app in Hlen. rewrite copy_chunks_cons.
    rewrite Uint8Array_set_fits; [|lia]. simpl.
    rewrite <- length_app. apply IH; [done|]. rewrite length_drop. lia.
  - done.
Qed.

Lemma reassemble_full ps : reassemble (Some <$> ps) = inr (concat ps).
Proof.
  unfold reassemble, array_reduce. rewrite array_present_Some.
  rewrite sum_of_lengths. simpl.
  apply (copy_chunks_full ps []). unfold Uint8Array_new.
  by rewrite length_replicate.
Qed.

Lemma reassemble_hole cs :
  None ∈ cs →
  reassemble cs = inl (TypeError "Cannot convert undefined or null to object").
Proof.
  intros Hin. unfold reassemble, array_reduce.
  rewrite sum_of_lengths. simpl.
  apply (copy_chunks_hole cs []); [done|]. unfold Uint8Array_new.
  by rewrite length_replicate.
Qed.

End ReassembleFacts.

(** ** Traces *)

Section EffectFacts.
Context `{Browser}.

Lemma lift_inr_bind {A B} (x : A) (k : A → Out B) : lift (inr x) ≫= k = k x.
Proof. unfold mbind, out_bind, bind. simpl. by destruct (k x). Qed.

Lemma lift_inl_bind {A B} (e : exn) (k : A → Out B) :
  lift (inl e) ≫= k = throw e.
Proof. reflexivity. Qed.

Lemma log_bind {B} m type (k : Out B) :
  (log m type;; k) = (Log m type :: k.1, k.2).
Proof. reflexivity. Qed.

End EffectFacts.

(** ** One notification *)

Section StepFacts.
Context `{Browser}.
Implicit Types (value payload : list byte) (st : Chunking).
Implicit Types (payloads : list (list byte)) (arrived order : list nat).

Lemma to_nat_byte_of n : n ≤ 255 → Byte.to_nat (byte_of n) = n.
Proof.
  intros Hn. unfold byte_of.
  pose proof (Byte.to_of_nat_option_map n) as Hmap.
  destruct (Byte.of_nat n) as [b|] eqn:Hb; simpl in *.
  - by apply Byte.to_of_nat.
  - destruct (Nat.leb_spec n 255); [done|lia].
Qed.

Lemma chunkIndex_fragment i t payload :
  i ≤ 255 → chunkIndex (fragment i t payload) = Some i.
Proof. intros Hi. unfold chunkIndex, fragment. simpl. by rewrite to_nat_byte_of. Qed.

Lemma totalChunks_fragment i t payload :
  t ≤ 255 → totalChunks (fragment i t payload) = Some t.
Proof. intros Ht. unfold totalChunks, fragment. simpl. by rewrite to_nat_byte_of. Qed.

Lemma chunkData_fragment i t payload : chunkData (fragment i t payload) = payload.
Proof. reflexivity. Qed.

Lemma receivedCount_present st : receivedCount st = length (array_present (chunks st)).
Proof. unfold receivedCount. by rewrite array_filter_true. Qed.

(** Index 0 forgets the globals. *)
Lemma store_first value st :
  chunkIndex value = Some 0 →
  store value st
  = {| chunks := [Some (chunkData value)]; expectedChunks := totalChunks value |}.
Proof. intros Hi. unfold store. rewrite Hi. reflexivity. Qed.

Lemma store_next value st i :
  chunkIndex value = Some i → i ≠ 0 →
  store value st
  = {| chunks := array_set (chunks st) i (chunkData value);
       expectedChunks := expectedChunks st |}.
Proof.
  intros Hi Hne. unfold store. rewrite Hi.
  rewrite bool_decide_false; [done|]. by intros [= ->].
Qed.

Lemma onResponse_buffering value st :
  complete (store value st) = false →
  onResponse value st = (store value st, chunk_line value).
Proof. intros Hc. unfold onResponse. by rewrite Hc. Qed.

Lemma onResponse_completing value st ps :
  complete (store value st) = true →
  chunks (store value st) = Some <$> ps →
  onResponse value st = (idle, chunk_line value;; deliver (concat ps)).
Proof.
  intros Hc Hps. unfold onResponse. by rewrite Hc, Hps, reassemble_full.
Qed.

Lemma onResponse_throwing value st :
  complete (store value st) = true →
  None ∈ chunks (store value st) →
  onResponse value st
  = (store value st,
     chunk_line value;;
     throw (TypeError "Cannot convert undefined or null to object")).
Proof.
  intros Hc Hhole. unfold onResponse. by rewrite Hc, reassemble_hole.
Qed.

Lemma no_hole_Some (cs : list (option (list byte))) :
  None ∉ cs → cs = Some <$> array_present cs.
Proof.
  induction cs as [|[p|] cs IH]; intros Hno; [done| |].
  - rewrite array_present_cons_Some, fmap_cons. f_equal. apply IH.
    intros Hin. apply Hno. by right.
  - destruct Hno. by left.
Qed.

(** An exception leaves [onResponse] exactly when the count test passes
    on an array that has a hole. *)
Lemma onResponse_throws_iff value st :
  (onResponse value st).2.2 ≠ inr ()
  ↔ complete (store value st) = true ∧ None ∈ chunks (store value st).
Proof.
  split.
  - intros Hthrows. destruct (complete (store value st)) eqn:Hc.
    + split; [done|].
      destruct (decide (None ∈ chunks (store value st))) as [|Hno]; [done|].
      destruct Hthrows.
      rewrite (onResponse_completing value st _ Hc (no_hole_Some _ Hno)).
      unfold chunk_line. rewrite log_bind. simpl.
      unfold deliver, try_catch. by destruct (_ ≫= _) as [trace [e|[]]].
    + destruct Hthrows. by rewrite onResponse_buffering.
  - intros [Hc Hhole]. by rewrite onResponse_throwing.
Qed.

End StepFacts.

(** ** A message in flight *)

Section InFlight.
Context `{Browser}.
Variable payloads : list (list byte).
Implicit Types (st : Chunking) (arrived order : list nat).

Lemma buffered_first st p :
  length payloads ≤ 255 →
  payloads !! 0 = Some p →
  buffered payloads [0] (store (fragment 0 (length payloads) p) st).
Proof.
  intros total_fits Hp. rewrite store_first; [|by apply chunkIndex_fragment; lia].
  rewrite totalChunks_fragment, chunkData_fragment; [|done].
  apply lookup_lt_Some in Hp as Hlt.
  split; [done|]. split; [simpl; lia|]. split; [done|].
  intros i. cbn [chunks]. case_decide as Hi.
  - apply list_elem_of_singleton in Hi as ->. by rewrite Hp.
  - destruct i as [|i]; [|done]. exfalso. apply Hi. by apply list_elem_of_singleton.
Qed.

Lemma buffered_next arrived st i p :
  length payloads ≤ 255 →
  buffered payloads arrived st →
  i ∉ arrived → i ≠ 0 → payloads !! i = Some p →
  buffered payloads (i :: arrived) (store (fragment i (length payloads) p) st).
Proof.
  intros total_fits (Hexp & Hlen & Hcount & Hget) Hfresh Hne Hp.
  apply lookup_lt_Some in Hp as Hlt.
  rewrite (store_next _ _ i); [|by apply chunkIndex_fragment; lia|done].
  rewrite chunkData_fragment.
  split; [done|]. split; [simpl; rewrite array_set_length; lia|].
  split.
  - rewrite receivedCount_present in *. simpl.
    rewrite array_present_set_length, Hget, decide_False; [|done].
    by rewrite Hcount.
  - intros j. simpl. rewrite array_get_set, Hget.
    destruct (decide (i = j)) as [<-|Hij].
    + rewrite decide_True; [done|]. apply elem_of_cons. by left.
    + destruct (decide (j ∈ arrived)) as [Hj|Hj].
      * rewrite decide_True; [done|]. apply elem_of_cons. by right.
      * rewrite decide_False; [done|].
        intros [->|?]%elem_of_cons; done.
Qed.

Lemma buffered_incomplete arrived st :
  buffered payloads arrived st →
  length arrived ≠ length payloads → complete st = false.
Proof.
  intros (Hexp & _ & Hcount & _) Hne. unfold complete.
  rewrite Hexp, Hcount. apply bool_decide_false. by intros [= ?].
Qed.

Lemma buffered_complete arrived st :
  buffered payloads arrived st →
  length arrived = length payloads →
  complete st = true ∧ chunks st = Some <$> payloads.
Proof.
  intros (Hexp & Hlen & Hcount & Hget) Hall. split.
  - unfold complete. rewrite Hexp, Hcount, Hall. by apply bool_decide_true.
  - rewrite receivedCount_present in Hcount.
    pose proof (array_present_length_le (chunks st)) as Hle.
    rewrite (array_full (chunks st)) by lia. f_equal.
    apply list_eq. intros i.
    assert (length (array_present (chunks st)) = length payloads) as Hps by lia.
    specialize (Hget i).
    rewrite (array_full (chunks st)), array_get_Some in Hget by lia.
    destruct (decide (i < length payloads)) as [Hi|Hi].
    + destruct (lookup_lt_is_Some_2 (array_present (chunks st)) i) as [p Hp];
        [lia|].
      rewrite Hp in Hget. rewrite Hp. by case_decide.
    + rewrite !lookup_ge_None_2; [done|lia|lia].
Qed.

End InFlight.

(** ** A whole message *)

Section Runs.
Context `{Browser}.
Implicit Types (st : Chunking) (arrived order rest : list nat).
Implicit Types (payloads : list (list byte)) (values : list (list byte)).

Lemma buffered_then_delivered_cons value values message :
  buffered_then_delivered (value :: values) message
  = match values with
    | [] => [chunk_line value;; deliver message]
    | _ => chunk_line value :: buffered_then_delivered values message
    end.
Proof.
  unfold buffered_then_delivered. rewrite imap_cons.
  destruct values as [|value' values]; [done|].
  rewrite decide_False; [|simpl; lia]. f_equal.
  apply imap_ext. intros i v _. simpl.
  destruct (decide (S i = S (length values)));
    destruct (decide (S (S i) = S (S (length values)))); done || lia.
Qed.

Lemma onResponses_cons value values st :
  onResponses (value :: values) st
  = ((onResponses values (onResponse value st).1).1,
     (onResponse value st).2 :: (onResponses values (onResponse value st).1).2).
Proof.
  simpl. destruct (onResponse value st) as [st' out]. cbn [fst snd].
  by destruct (onResponses values st') as [st'' outs].
Qed.

Lemma fragments_cons payloads i order :
  fragments payloads (i :: order)
  = fragment i (length payloads) (payloads !!! i) :: fragments payloads order.
Proof. reflexivity. Qed.

(** Once index 0 is in, the other slices may come in any order. *)
Lemma onResponses_rest payloads rest arrived st :
  length payloads ≤ 255 →
  buffered payloads arrived st →
  NoDup (rest ++ arrived) →
  (∀ i, i ∈ rest → i ≠ 0 ∧ i < length payloads) →
  length rest + length arrived = length payloads →
  rest ≠ [] →
  onResponses (fragments payloads rest) st
  = (idle, buffered_then_delivered (fragments payloads rest) (concat payloads)).
Proof.
  intros Hfits. revert arrived st.
  induction rest as [|i rest IH]; intros arrived st Hbuf Hnodup Hin Hlen Hsome;
    [done|clear Hsome].
  destruct (Hin i) as [Hne Hlt]; [by left|].
  destruct (lookup_lt_is_Some_2 payloads i Hlt) as [p Hp].
  apply list.NoDup_cons in Hnodup as [Hfresh Hnodup].
  apply not_elem_of_app in Hfresh as Hfresh'. destruct Hfresh' as [_ Hfresh'].
  pose proof (buffered_next payloads arrived st i p Hfits Hbuf Hfresh' Hne Hp)
    as Hbuf'.
  rewrite fragments_cons, (list_lookup_total_correct _ _ _ Hp).
  rewrite onResponses_cons, buffered_then_delivered_cons.
  destruct rest as [|i' rest].
  - destruct (buffered_complete payloads (i :: arrived) _ Hbuf') as [Hc Hps];
      [simpl in *; lia|].
    by rewrite (onResponse_completing _ _ _ Hc Hps).
  - rewrite onResponse_buffering.
    2:{ eapply buffered_incomplete; [exact Hbuf'|]. simpl in *. lia. }
    cbn [fst snd]. rewrite (IH (i :: arrived)); [done|..].
    + exact Hbuf'.
    + rewrite <- Permutation_middle. by apply NoDup_cons_2.
    + intros j Hj. apply Hin. by right.
    + simpl in *. lia.
    + done.
Qed.

Lemma reassembly_any_order payloads order st :
  length payloads ≤ 255 →
  0 :: order ≡ₚ seq 0 (length payloads) →
  onResponses (fragments payloads (0 :: order)) st
  = (idle,
     buffered_then_delivered (fragments payloads (0 :: order)) (concat payloads)).
Proof.
  intros Hfits Hperm.
  assert (NoDup (0 :: order)) as Hnodup by (rewrite Hperm; apply NoDup_seq).
  assert (∀ i, i ∈ 0 :: order → i < length payloads) as Hin.
  { intros i Hi. rewrite Hperm in Hi. apply elem_of_seq in Hi. lia. }
  assert (S (length order) = length payloads) as Hlen.
  { apply Permutation_length in Hperm. by rewrite length_seq in Hperm. }
  destruct (lookup_lt_is_Some_2 payloads 0) as [p Hp]; [lia|].
  pose proof (buffered_first payloads st p Hfits Hp) as Hbuf.
  rewrite fragments_cons, (list_lookup_total_correct _ _ _ Hp).
  rewrite onResponses_cons, buffered_then_delivered_cons.
  destruct order as [|i order].
  - destruct (buffered_complete payloads [0] _ Hbuf) as [Hc Hps]; [done|].
    by rewrite (onResponse_completing _ _ _ Hc Hps).
  - rewrite onResponse_buffering.
    2:{ eapply buffered_incomplete; [done|]. simpl in *. lia. }
    cbn [fst snd].
    rewrite (onResponses_rest payloads (i :: order) [0]); [done|done|done| | | |done].
    + by rewrite <- Permutation_cons_append.
    + apply list.NoDup_cons in Hnodup as [Hfresh _].
      intros j Hj. split; [|apply Hin; by right]. by intros ->.
    + simpl in *. lia.
Qed.

End Runs.

(** ** The first fragment, and what follows a delivery *)

Section FirstFragment.
Context `{Browser}.
Implicit Types (value : list byte) (st : Chunking).

(** A fragment with index 0 is handled the same whatever was buffered:
    alone it is the whole message when its total is 1, and otherwise it
    becomes the only slice in the buffer. *)
Lemma onResponse_first value st :
  chunkIndex value = Some 0 →
  onResponse value st
  = if bool_decide (totalChunks value = Some 1)
    then (idle, chunk_line value;; deliver (chunkData value))
    else ({| chunks := [Some (chunkData value)];
             expectedChunks := totalChunks value |},
          chunk_line value).
Proof.
  intros Hi. pose proof (store_first value st Hi) as Hst.
  assert (complete (store value st) = bool_decide (totalChunks value = Some 1))
    as Hc by (by rewrite Hst).
  case_bool_decide as Ht.
  - rewrite (onResponse_completing value st [chunkData value]); [|done|by rewrite Hst].
    simpl. by rewrite app_nil_r.
  - rewrite onResponse_buffering; [|done]. by rewrite Hst.
Qed.

(** The [catch] takes every exception: delivering never throws. *)
Lemma deliver_returns (fullData : list byte) : (deliver fullData).2 = inr ().
Proof.
  unfold deliver, try_catch.
  destruct (_ ≫= _) as [trace [e|[]]]; reflexivity.
Qed.

Lemma deliver_parse_error (fullData : list byte) e :
  JSON_parse (TextDecoder_decode fullData) = inl e →
  deliver fullData = ([Log (ErreurJSON (message e)) "error"], inr ()).
Proof. intros He. unfold deliver. rewrite He. reflexivity. Qed.

End FirstFragment.

(** ** A run on the sample browser *)

(** The text [{"type":"pong"}] in two fragments: the first is buffered,
    the second completes the message, which is logged as received and
    answered by the [pong] clause. *)
Example end_to_end :
  onResponses (H := Sample.browser)
    [fragment 0 2 Sample.A; fragment 1 2 Sample.B] idle
  = (idle,
     [([Log (ChunkRecu (Some 1) (Some 2) 5) ""], inr ());
      ([Log (ChunkRecu (Some 2) (Some 2) 10) "";
        Log (Recu "pong") "";
        Log ConnexionVerifiee "success"], inr ())]).
Proof. vm_compute. reflexivity. Qed.

(** * The specification, claim by claim *)

(** C1, as it is written, on the two halves of the text
    [{"type":"pong"}]: when the fragment with index 1 arrives first and
    the one with index 0 second, both calls only log their chunk line,
    [A] alone stays buffered, and the run is not the one that delivers
    [A ++ B] at the second fragment. *)
Lemma out_of_order_two_fragments_not_delivered :
  onResponses (H := Sample.browser)
    [fragment 1 2 Sample.B; fragment 0 2 Sample.A] idle
  = ({| chunks := [Some Sample.A]; expectedChunks := Some 2 |},
     [([Log (ChunkRecu (Some 2) (Some 2) 10) ""], inr ());
      ([Log (ChunkRecu (Some 1) (Some 2) 5) ""], inr ())])
  ∧ ¬ ∃ st,
        onResponses (H := Sample.browser)
          [fragment 1 2 Sample.B; fragment 0 2 Sample.A] idle
        = (st, buffered_then_delivered (H := Sample.browser)
                 [fragment 1 2 Sample.B; fragment 0 2 Sample.A]
                 (Sample.A ++ Sample.B)).
Proof.
  split; [vm_compute; reflexivity|].
  intros [st Hrun]. vm_compute in Hrun. discriminate Hrun.
Qed.

(** C1, amended. Arrival order does not matter among the fragments that
    follow the one with index 0: when index 0 comes first and the other
    indices of the message in any order, the last call delivers the
    slices concatenated by index. A fragment that arrives before index 0
    is lost: for the two-fragment message delivered as index 1 then
    index 0 to an idle reassembler, nothing is delivered, [A] alone is
    buffered and index 1 is still awaited. *)
Theorem index_order_after_first_fragment `{Browser}
    (A B : list byte) (payloads : list (list byte)) (order : list nat)
    (st : Chunking) :
  length payloads ≤ 255 →
  0 :: order ≡ₚ seq 0 (length payloads) →
  onResponses (fragments payloads (0 :: order)) st
  = (idle,
     buffered_then_delivered (fragments payloads (0 :: order))
       (concat payloads))
  ∧ onResponses [fragment 1 2 B; fragment 0 2 A] idle
    = ({| chunks := [Some A]; expectedChunks := Some 2 |},
       [chunk_line (fragment 1 2 B); chunk_line (fragment 0 2 A)]).
Proof.
  intros Hfits Hperm. split; [by apply reassembly_any_order|reflexivity].
Qed.

Lemma index_order_after_first_fragment_witness :
  length [Sample.A; Sample.garbage; Sample.B] ≤ 255
  ∧ 0 :: [2; 1] ≡ₚ seq 0 (length [Sample.A; Sample.garbage; Sample.B])
  ∧ onResponses (H := Sample.browser)
      (fragments [Sample.A; Sample.garbage; Sample.B] [0; 2; 1]) idle
    = (idle,
       buffered_then_delivered (H := Sample.browser)
         (fragments [Sample.A; Sample.garbage; Sample.B] [0; 2; 1])
         (Sample.A ++ Sample.garbage ++ Sample.B ++ [])).
Proof.
  assert (length [Sample.A; Sample.garbage; Sample.B] ≤ 255) as Hfits
    by (vm_compute; lia).
  assert (0 :: [2; 1] ≡ₚ seq 0 (length [Sample.A; Sample.garbage; Sample.B]))
    as Hperm by (simpl; apply perm_skip, perm_swap).
  split; [exact Hfits|]. split; [exact Hperm|].
  exact (proj1 (index_order_after_first_fragment (H := Sample.browser)
                  [] [] _ [2; 1] idle Hfits Hperm)).
Defined.

(** C2. Round trip: a message [M] cut into at most 255 slices whose
    concatenation is [M], sent with the headers [index], [total] in
    index order, is put together again whatever the reassembler held
    before: every call but the last only buffers, and the last one
    decodes exactly the bytes [M], parses the text and hands the result
    to [handleResponse]. *)
Theorem round_trip `{Browser} (M : list byte) (payloads : list (list byte))
    (st : Chunking) :
  payloads ≠ [] →
  length payloads ≤ 255 →
  concat payloads = M →
  onResponses (fragments payloads (seq 0 (length payloads))) st
  = (idle,
     buffered_then_delivered (fragments payloads (seq 0 (length payloads))) M)
  ∧ ∀ response,
      JSON_parse (TextDecoder_decode M) = inr response →
      deliver M
      = try_catch (handleResponse response)
          (λ e, log (ErreurJSON (message e)) "error").
Proof.
  intros Hsome Hfits <-. split.
  - destruct payloads as [|p payloads]; [done|].
    cbn [length seq]. apply reassembly_any_order; [done|].
    reflexivity.
  - intros response Hparse. unfold deliver.
    by rewrite Hparse, lift_inr_bind.
Qed.

Lemma round_trip_witness :
  [Sample.A; Sample.B] ≠ []
  ∧ length [Sample.A; Sample.B] ≤ 255
  ∧ concat [Sample.A; Sample.B] = Sample.A ++ Sample.B ++ []
  ∧ onResponses (H := Sample.browser)
      (fragments [Sample.A; Sample.B] [0; 1]) idle
    = (idle,
       buffered_then_delivered (H := Sample.browser)
         (fragments [Sample.A; Sample.B] [0; 1])
         (Sample.A ++ Sample.B ++ [])).
Proof.
  assert ([Sample.A; Sample.B] ≠ []) as Hsome by discriminate.
  assert (length [Sample.A; Sample.B] ≤ 255) as Hfits by (vm_compute; lia).
  split; [exact Hsome|]. split; [exact Hfits|]. split; [reflexivity|].
  exact (proj1 (round_trip (H := Sample.browser) _ [Sample.A; Sample.B] idle
                  Hsome Hfits eq_refl)).
Defined.

(** C3. A header out of range makes an exception leave [onResponse]:
    after index 0 of a two-fragment message, a fragment with index 2 and
    total 2 brings the count of populated slots to 2 with slot 1 a hole;
    the copy loop passes the hole to [set], the [TypeError] is not
    caught, and the globals are not reset. *)
Theorem header_out_of_range_throws `{Browser} (A C : list byte)
    (st : Chunking) :
  onResponses [fragment 0 2 A; fragment 2 2 C] st
  = ({| chunks := [Some A; None; Some C]; expectedChunks := Some 2 |},
     [chunk_line (fragment 0 2 A);
      ([Log (ChunkRecu (Some 3) (Some 2) (length C)) ""],
       inl (TypeError "Cannot convert undefined or null to object"))]).
Proof.
  rewrite onResponses_cons, onResponse_first; [|done].
  change (bool_decide (totalChunks (fragment 0 2 A) = Some 1)) with false.
  cbn [fst snd].
  rewrite onResponses_cons, onResponse_throwing; [reflexivity|reflexivity|].
  change (None ∈ [Some A; None; Some C]).
  apply list_elem_of_further, list_elem_of_here.
Qed.

(** C4. Abandonment: whatever the reassembler holds, a fragment with
    index 0 drops it. The call answers as a function of the new fragment
    alone: with total 1 the new message is delivered at once, and
    otherwise the buffer is the new slice alone with the expected count
    set to the new total, and nothing but the chunk line is logged, so
    nothing is emitted for the message that was in progress. *)
Theorem abandonment `{Browser} (value : list byte) (st : Chunking) :
  chunkIndex value = Some 0 →
  onResponse value st
  = (if bool_decide (totalChunks value = Some 1)
     then (idle, chunk_line value;; deliver (chunkData value))
     else ({| chunks := [Some (chunkData value)];
              expectedChunks := totalChunks value |},
           ([Log (ChunkRecu (Some 1) (totalChunks value)
                    (length (chunkData value))) ""], inr ())))
  ∧ ∀ st', onResponse value st' = onResponse value st.
Proof.
  intros Hi. split.
  - rewrite onResponse_first; [|done]. unfold chunk_line. by rewrite Hi.
  - intros st'. by rewrite !onResponse_first.
Qed.

Lemma abandonment_witness :
  chunkIndex (fragment 0 2 Sample.A) = Some 0
  ∧ onResponse (H := Sample.browser) (fragment 0 2 Sample.A)
      {| chunks := [Some Sample.garbage; None; Some Sample.B];
         expectedChunks := Some 4 |}
    = ({| chunks := [Some Sample.A]; expectedChunks := Some 2 |},
       ([Log (ChunkRecu (Some 1) (Some 2) 5) ""], inr ())).
Proof.
  split; [reflexivity|].
  exact (proj1 (abandonment (H := Sample.browser) (fragment 0 2 Sample.A)
                  {| chunks := [Some Sample.garbage; None; Some Sample.B];
                     expectedChunks := Some 4 |} eq_refl)).
Defined.

(** C5. Duplicate fragment: when the fragment with index 0 of a
    two-fragment message is delivered twice, the second copy completes
    nothing, the buffer holds the later payload once, and the message
    delivered when index 1 arrives is that payload followed by the
    second slice. In general, storing a second fragment with the index
    of the one just stored leaves the count of populated slots as it
    was and puts the later payload in the slot. *)
Theorem duplicate_fragment `{Browser} (A A' B : list byte)
    (value value' : list byte) (i : nat) (st : Chunking) :
  chunkIndex value = Some i →
  chunkIndex value' = Some i →
  onResponses [fragment 0 2 A; fragment 0 2 A'] st
  = ({| chunks := [Some A']; expectedChunks := Some 2 |},
     [chunk_line (fragment 0 2 A); chunk_line (fragment 0 2 A')])
  ∧ onResponses [fragment 0 2 A; fragment 0 2 A'; fragment 1 2 B] st
    = (idle,
       [chunk_line (fragment 0 2 A); chunk_line (fragment 0 2 A');
        chunk_line (fragment 1 2 B);; deliver (A' ++ B)])
  ∧ receivedCount (store value' (store value st))
    = receivedCount (store value st)
  ∧ array_get (chunks (store value' (store value st))) i
    = Some (chunkData value').
Proof.
  intros Hi Hi'.
  assert (onResponses [fragment 0 2 A; fragment 0 2 A'] st
          = ({| chunks := [Some A']; expectedChunks := Some 2 |},
             [chunk_line (fragment 0 2 A); chunk_line (fragment 0 2 A')]))
    as Htwice.
  { rewrite onResponses_cons, onResponse_first; [|done].
    rewrite onResponses_cons, onResponse_first; [|done]. reflexivity. }
  split; [exact Htwice|]. split.
  - rewrite onResponses_cons, onResponse_first; [|done].
    change (if bool_decide (totalChunks (fragment 0 2 A) = Some 1) then _ else _)
      with ({| chunks := [Some A]; expectedChunks := Some 2 |},
            chunk_line (fragment 0 2 A)).
    cbn [fst snd].
    pose proof (reassembly_any_order [A'; B] [1]
                  {| chunks := [Some A]; expectedChunks := Some 2 |}
                  ltac:(simpl; lia) ltac:(reflexivity)) as Hrun.
    change (fragments [A'; B] [0; 1])
      with [fragment 0 2 A'; fragment 1 2 B] in Hrun.
    rewrite Hrun. cbn [fst snd]. simpl concat. by rewrite app_nil_r.
  - destruct (decide (i = 0)) as [->|Hne].
    + rewrite (store_first value'), (store_first value); [|done..].
      split; reflexivity.
    + rewrite (store_next value' _ i), (store_next value _ i); [|done..].
      rewrite !receivedCount_present. cbn [chunks].
      rewrite array_present_set_length, !array_get_set.
      destruct (decide (i = i)); done.
Qed.

Lemma duplicate_fragment_witness :
  chunkIndex (fragment 1 3 Sample.garbage) = Some 1
  ∧ chunkIndex (fragment 1 3 Sample.B) = Some 1
  ∧ receivedCount
      (store (fragment 1 3 Sample.B)
         (store (fragment 1 3 Sample.garbage)
            {| chunks := [Some Sample.A]; expectedChunks := Some 3 |}))
    = 2
  ∧ array_get
      (chunks
         (store (fragment 1 3 Sample.B)
            (store (fragment 1 3 Sample.garbage)
               {| chunks := [Some Sample.A]; expectedChunks := Some 3 |})))
      1
    = Some Sample.B.
Proof.
  split; [reflexivity|]. split; [reflexivity|].
  pose proof (duplicate_fragment (H := Sample.browser) [] [] []
                (fragment 1 3 Sample.garbage) (fragment 1 3 Sample.B) 1
                {| chunks := [Some Sample.A]; expectedChunks := Some 3 |}
                eq_refl eq_refl) as (_ & _ & Hcount & Hslot).
  split; [exact Hcount|exact Hslot].
Defined.

(** C6. Single-fragment message: a fragment that satisfies the
    invariant of the data model ([index < total]) and has total 1
    completes at once, whatever was buffered: the call decodes, parses
    and dispatches the payload of that fragment as it arrived, and
    leaves the reassembler idle. *)
Theorem single_fragment_message `{Browser} (value : list byte)
    (st : Chunking) :
  well_formed value →
  totalChunks value = Some 1 →
  onResponse value st = (idle, chunk_line value;; deliver (chunkData value))
  ∧ deliver (chunkData value)
    = try_catch
        (response ← lift (JSON_parse (TextDecoder_decode (chunkData value)));
         handleResponse response)
        (λ e, log (ErreurJSON (message e)) "error").
Proof.
  intros (i & t & Hi & Ht & Hlt) Hone. split; [|reflexivity].
  rewrite Ht in Hone. injection Hone as ->.
  assert (i = 0) as -> by lia.
  rewrite onResponse_first; [|done]. by rewrite Ht.
Qed.

Lemma single_fragment_message_witness :
  well_formed (fragment 0 1 (Sample.A ++ Sample.B))
  ∧ totalChunks (fragment 0 1 (Sample.A ++ Sample.B)) = Some 1
  ∧ onResponse (H := Sample.browser)
      (fragment 0 1 (Sample.A ++ Sample.B)) idle
    = (idle,
       ([Log (ChunkRecu (Some 1) (Some 1) 15) "";
         Log (Recu "pong") "";
         Log ConnexionVerifiee "success"], inr ())).
Proof.
  assert (well_formed (fragment 0 1 (Sample.A ++ Sample.B))) as Hwf.
  { exists 0, 1. split; [reflexivity|]. split; [reflexivity|]. lia. }
  split; [exact Hwf|]. split; [reflexivity|].
  exact (proj1 (single_fragment_message (H := Sample.browser)
                  (fragment 0 1 (Sample.A ++ Sample.B)) idle Hwf eq_refl)).
Defined.

(** C7. Decode failure isolation: when the count test passes and the
    slices are concatenated into [fullData], the call returns without
    an exception and leaves the buffer empty and the expected count 0,
    whether or not the text parses and whatever the dispatcher does.
    When [JSON.parse] throws, the call logs the error after the chunk
    line and invokes no handler. A message that follows, starting at its
    index 0, is then reassembled and delivered as from a fresh start. *)
Theorem decode_failure_isolation `{Browser} (value fullData : list byte)
    (st : Chunking) :
  complete (store value st) = true →
  reassemble (chunks (store value st)) = inr fullData →
  (onResponse value st).1 = {| chunks := []; expectedChunks := Some 0 |}
  ∧ (onResponse value st).2.2 = inr ()
  ∧ (∀ e, JSON_parse (TextDecoder_decode fullData) = inl e →
          (onResponse value st).2
          = ([Log (ChunkRecu (S <$> chunkIndex value) (totalChunks value)
                     (length (chunkData value))) "";
              Log (ErreurJSON (message e)) "error"], inr ()))
  ∧ (∀ payloads, payloads ≠ [] → length payloads ≤ 255 →
       onResponses (fragments payloads (seq 0 (length payloads)))
         (onResponse value st).1
       = (idle,
          buffered_then_delivered
            (fragments payloads (seq 0 (length payloads)))
            (concat payloads))).
Proof.
  intros Hc Hfull. unfold onResponse. rewrite Hc, Hfull. cbn [fst snd].
  unfold chunk_line. rewrite log_bind.
  split; [reflexivity|]. split; [|split].
  - apply deliver_returns.
  - intros e He. by rewrite (deliver_parse_error _ e He).
  - intros [|p payloads] Hsome Hfits; [done|].
    cbn [length seq]. by apply reassembly_any_order.
Qed.

Lemma decode_failure_isolation_witness :
  complete
    (store (fragment 1 2 Sample.garbage)
       {| chunks := [Some Sample.garbage]; expectedChunks := Some 2 |})
  = true
  ∧ reassemble
      (chunks
         (store (fragment 1 2 Sample.garbage)
            {| chunks := [Some Sample.garbage]; expectedChunks := Some 2 |}))
    = inr (Sample.garbage ++ Sample.garbage)
  ∧ onResponse (H := Sample.browser) (fragment 1 2 Sample.garbage)
      {| chunks := [Some Sample.garbage]; expectedChunks := Some 2 |}
    = (idle,
       ([Log (ChunkRecu (Some 2) (Some 2) 8) "";
         Log (ErreurJSON "Unexpected token") "error"], inr ())).
Proof.
  split; [reflexivity|]. split; [reflexivity|].
  pose proof (decode_failure_isolation (H := Sample.browser)
                (fragment 1 2 Sample.garbage)
                (Sample.garbage ++ Sample.garbage)
                {| chunks := [Some Sample.garbage];
                   expectedChunks := Some 2 |}
                eq_refl eq_refl) as (Hst & _ & Herr & _).
  specialize (Herr (SyntaxError "Unexpected token") eq_refl).
  apply injective_projections; [exact Hst|exact Herr].
Defined.

(** ** Dispatch *)

Section DispatchFacts.
Context `{Browser}.





End DispatchFacts.



(** C9. Before [connect] has stored the command characteristic,
    [sendCommand] logs 'Non connecté' as an error and returns: the trace
    has no write and the call throws nothing, whatever the command. *)
Theorem sendCommand_not_connected `{Browser} (cmd : jsval number) :
  sendCommand None cmd = ([Log NonConnecte "error"], inr ())
  ∧ ∀ c bytes, WriteValue c bytes ∉ (sendCommand None cmd).1.
Proof.
  split; [reflexivity|].
  intros c bytes Hin. simpl in Hin.
  apply list_elem_of_singleton in Hin. discriminate Hin.
Qed.

(** C10. A fragment whose index is not 0 and that reaches an idle
    reassembler completes nothing: it is stored, the count of populated
    slots is at least 1, the expected count is still 0, and the call
    only logs its chunk line. *)
Theorem idle_nonzero_index_never_completes `{Browser} (value : list byte)
    (i : nat) :
  chunkIndex value = Some i →
  i ≠ 0 →
  onResponse value idle
  = ({| chunks := array_set [] i (chunkData value);
        expectedChunks := Some 0 |},
     ([Log (ChunkRecu (Some (S i)) (totalChunks value)
              (length (chunkData value))) ""], inr ()))
  ∧ 1 ≤ receivedCount (onResponse value idle).1
  ∧ complete (store value idle) = false.
Proof.
  intros Hi Hne.
  assert (receivedCount (store value idle) = 1) as Hcount.
  { rewrite (store_next _ _ i), receivedCount_present; [|done..].
    cbn [chunks idle]. by rewrite array_present_set_length. }
  assert (complete (store value idle) = false) as Hc.
  { unfold complete. rewrite Hcount, (store_next _ _ i); done. }
  rewrite onResponse_buffering; [|done]. cbn [fst].
  split; [|split; [lia|done]].
  rewrite (store_next _ _ i); [|done..]. unfold chunk_line. by rewrite Hi.
Qed.

Lemma idle_nonzero_index_never_completes_witness :
  chunkIndex (fragment 1 2 Sample.B) = Some 1
  ∧ 1 ≠ 0
  ∧ onResponse (H := Sample.browser) (fragment 1 2 Sample.B) idle
    = ({| chunks := [None; Some Sample.B]; expectedChunks := Some 0 |},
       ([Log (ChunkRecu (Some 2) (Some 2) 10) ""], inr ())).
Proof.
  assert (1 ≠ 0) as Hne by discriminate.
  split; [reflexivity|]. split; [exact Hne|].
  exact (proj1 (idle_nonzero_index_never_completes (H := Sample.browser)
                  (fragment 1 2 Sample.B) 1 eq_refl Hne)).
Defined.

(** * Further properties of the code *)

(** ** The reassembler on arbitrary streams *)

Section StreamFacts.
Context `{Browser}.
Implicit Types (value : list byte) (values : list (list byte)).
Implicit Types (st : Chunking) (payloads : list (list byte)).

Lemma onResponses_app values1 values2 st :
  onResponses (values1 ++ values2) st
  = ((onResponses values2 (onResponses values1 st).1).1,
     (onResponses values1 st).2
     ++ (onResponses values2 (onResponses values1 st).1).2).
Proof.
  revert st. induction values1 as [|value values1 IH]; intros st.
  - simpl. by destruct (onResponses values2 st).
  - rewrite <- app_comm_cons, !onResponses_cons, IH. reflexivity.
Qed.

Lemma receivedCount_set st i (x : list byte) :
  receivedCount st
  ≤ receivedCount {| chunks := array_set (chunks st) i x;
                     expectedChunks := expectedChunks st |}.
Proof.
  rewrite !receivedCount_present. cbn [chunks].
  rewrite array_present_set_length. destruct (array_get _ _); lia.
Qed.

Lemma stalled_incomplete st : stalled st → complete st = false.
Proof.
  unfold stalled, complete. destruct (expectedChunks st) as [t|]; intros Ht.
  - apply bool_decide_false. intros [= ->]. lia.
  - by apply bool_decide_false.
Qed.

Lemma stalled_store value st :
  stalled st → continuation value → stalled (store value st).
Proof.
  intros Hst (i & Hi & Hne). rewrite (store_next _ _ i); [|done..].
  unfold stalled in *. cbn [expectedChunks].
  destruct (expectedChunks st) as [t|] eqn:Hexp; [|done].
  eapply Nat.lt_le_trans; [exact Hst|].
  pose proof (receivedCount_set st i (chunkData value)) as Hle.
  by rewrite Hexp in Hle.
Qed.

Lemma stalled_run values st :
  stalled st → Forall continuation values →
  onResponses values st
  = (foldl (λ st value, store value st) st values, chunk_line <$> values)
  ∧ stalled (foldl (λ st value, store value st) st values)
  ∧ expectedChunks (foldl (λ st value, store value st) st values)
    = expectedChunks st.
Proof.
  intros Hst Hall. revert st Hst.
  induction Hall as [|value values Hvalue _ IH]; intros st Hst; [done|].
  pose proof (stalled_store value st Hst Hvalue) as Hst'.
  rewrite onResponses_cons, onResponse_buffering;
    [|by apply stalled_incomplete].
  cbn [fst snd foldl]. destruct (IH _ Hst') as (-> & Hend & ->).
  split; [done|]. split; [done|].
  destruct Hvalue as (i & Hi & Hne). by rewrite (store_next _ _ i).
Qed.

Lemma within_expected_store value st :
  within_expected st → in_range_header value st →
  within_expected (store value st).
Proof.
  intros (t0 & Hexp & Hlen) (i & t & Hi & Hlt & Hcase).
  destruct (decide (i = 0)) as [->|Hne].
  - rewrite store_first; [|done]. exists t. split; [done|]. simpl. lia.
  - rewrite (store_next _ _ i); [|done..]. exists t. split; [done|].
    cbn [chunks]. rewrite array_set_length.
    rewrite Hexp in Hcase. injection Hcase as ->. lia.
Qed.

Lemma within_expected_no_hole st :
  within_expected st → complete st = true →
  chunks st = Some <$> array_present (chunks st).
Proof.
  intros (t & Hexp & Hlen) Hc. unfold complete in Hc.
  apply bool_decide_eq_true in Hc. rewrite Hexp in Hc. injection Hc as ->.
  rewrite receivedCount_present in Hlen. apply array_full.
  pose proof (array_present_length_le (chunks st)). lia.
Qed.

Lemma onResponses_in_order payloads st :
  payloads ≠ [] → length payloads ≤ 255 →
  onResponses (in_order payloads) st
  = (idle, buffered_then_delivered (in_order payloads) (concat payloads)).
Proof.
  intros Hsome Hfits. unfold in_order.
  destruct payloads as [|p payloads]; [done|].
  cbn [length seq]. by apply reassembly_any_order.
Qed.

(** As long as slices are missing, every call only logs its line. *)
Lemma onResponses_partial_rest payloads rest arrived st :
  length payloads ≤ 255 →
  buffered payloads arrived st →
  NoDup (rest ++ arrived) →
  (∀ i, i ∈ rest → i ≠ 0 ∧ i < length payloads) →
  length rest + length arrived < length payloads →
  (onResponses (fragments payloads rest) st).2
  = chunk_line <$> fragments payloads rest.
Proof.
  intros Hfits. revert arrived st.
  induction rest as [|i rest IH]; intros arrived st Hbuf Hnodup Hin Hlen;
    [done|].
  destruct (Hin i) as [Hne Hlt]; [by left|].
  destruct (lookup_lt_is_Some_2 payloads i Hlt) as [p Hp].
  apply list.NoDup_cons in Hnodup as [Hfresh Hnodup].
  apply not_elem_of_app in Hfresh as Hfresh'. destruct Hfresh' as [_ Hfresh'].
  pose proof (buffered_next payloads arrived st i p Hfits Hbuf Hfresh' Hne Hp)
    as Hbuf'.
  rewrite fragments_cons, (list_lookup_total_correct _ _ _ Hp).
  rewrite onResponses_cons, onResponse_buffering.
  2:{ eapply buffered_incomplete; [exact Hbuf'|]. simpl in *. lia. }
  cbn [fst snd]. rewrite fmap_cons. f_equal.
  apply (IH (i :: arrived)); [exact Hbuf'| | |simpl in *; lia].
  - rewrite <- Permutation_middle. by apply NoDup_cons_2.
  - intros j Hj. apply Hin. by right.
Qed.

(** The first [k] fragments of a longer message are only buffered. *)
Lemma onResponses_prefix payloads k st :
  length payloads ≤ 255 → k < length payloads →
  (onResponses (take k (in_order payloads)) st).2
  = chunk_line <$> take k (in_order payloads).
Proof.
  intros Hfits Hk. unfold in_order, fragments.
  rewrite <- fmap_take, take_seq, Nat.min_l by lia.
  change ((λ i, fragment i (length payloads) (payloads !!! i)) <$> seq 0 k)
    with (fragments payloads (seq 0 k)).
  destruct k as [|k]; [done|]. cbn [seq].
  destruct (lookup_lt_is_Some_2 payloads 0) as [p Hp]; [lia|].
  pose proof (buffered_first payloads st p Hfits Hp) as Hbuf.
  rewrite fragments_cons, (list_lookup_total_correct _ _ _ Hp).
  rewrite onResponses_cons, onResponse_buffering.
  2:{ eapply buffered_incomplete; [done|]. simpl. lia. }
  cbn [fst snd]. rewrite fmap_cons. f_equal.
  apply (onResponses_partial_rest payloads (seq 1 k) [0]); [done|done| | |].
  - rewrite <- Permutation_cons_append. apply (NoDup_seq 0 (S k)).
  - intros j Hj%elem_of_seq. lia.
  - rewrite length_seq. simpl. lia.
Qed.

End StreamFacts.

(** X1. An exception leaves [onResponse] exactly when, after the store,
    the count of populated slots equals the expected count while the
    array has a hole. It is then the [TypeError] of the copy loop, only
    the chunk line has been logged, and the globals keep what was
    stored: they are not reset. *)
Theorem exception_escapes_exactly_on_hole `{Browser} (value : list byte)
    (st : Chunking) :
  ((onResponse value st).2.2 ≠ inr ()
   ↔ complete (store value st) = true ∧ None ∈ chunks (store value st))
  ∧ ((onResponse value st).2.2 ≠ inr () →
     onResponse value st
     = (store value st,
        ([Log (ChunkRecu (S <$> chunkIndex value) (totalChunks value)
                 (length (chunkData value))) ""],
         inl (TypeError "Cannot convert undefined or null to object")))).
Proof.
  assert (complete (store value st) = true ∧ None ∈ chunks (store value st)
          → onResponse value st
            = (store value st,
               ([Log (ChunkRecu (S <$> chunkIndex value) (totalChunks value)
                        (length (chunkData value))) ""],
                inl (TypeError "Cannot convert undefined or null to object"))))
    as Hthrow.
  { intros [Hc Hhole]. by rewrite onResponse_throwing. }
  assert ((onResponse value st).2.2 ≠ inr ()
          → complete (store value st) = true
            ∧ None ∈ chunks (store value st)) as Honly.
  { intros Hthrows. destruct (complete (store value st)) eqn:Hc.
    - split; [done|].
      destruct (decide (None ∈ chunks (store value st))) as [|Hno]; [done|].
      destruct Hthrows.
      rewrite (onResponse_completing value st _ Hc (no_hole_Some _ Hno)).
      unfold chunk_line. rewrite log_bind. apply deliver_returns.
    - destruct Hthrows. by rewrite onResponse_buffering. }
  split; [split; [exact Honly|]|].
  - intros Hboth. by rewrite (Hthrow Hboth).
  - intros Hthrows. by apply Hthrow, Honly.
Qed.

Lemma exception_escapes_exactly_on_hole_witness :
  (onResponse (H := Sample.browser) (fragment 2 2 Sample.B)
     {| chunks := [Some Sample.A]; expectedChunks := Some 2 |}).2.2 ≠ inr ()
  ∧ onResponse (H := Sample.browser) (fragment 2 2 Sample.B)
      {| chunks := [Some Sample.A]; expectedChunks := Some 2 |}
    = ({| chunks := [Some Sample.A; None; Some Sample.B];
          expectedChunks := Some 2 |},
       ([Log (ChunkRecu (Some 3) (Some 2) 10) ""],
        inl (TypeError "Cannot convert undefined or null to object"))).
Proof.
  assert ((onResponse (H := Sample.browser) (fragment 2 2 Sample.B)
             {| chunks := [Some Sample.A]; expectedChunks := Some 2 |}).2.2
          ≠ inr ()) as Hthrows by (vm_compute; discriminate).
  split; [exact Hthrows|].
  exact (proj2 (exception_escapes_exactly_on_hole (H := Sample.browser)
                  (fragment 2 2 Sample.B)
                  {| chunks := [Some Sample.A]; expectedChunks := Some 2 |})
           Hthrows).
Defined.

(** X2. While the array is no longer than the expected count, a fragment
    whose header is in range (index 0 with a total of at least 1, or an
    index below the expected count) is handled without an exception, in
    any order and with repeats, and the array is again no longer than
    the expected count afterwards. *)
Theorem in_range_header_never_throws `{Browser} (value : list byte)
    (st : Chunking) :
  within_expected st →
  in_range_header value st →
  (onResponse value st).2.2 = inr ()
  ∧ within_expected (onResponse value st).1.
Proof.
  intros Hst Hvalue.
  pose proof (within_expected_store value st Hst Hvalue) as Hst'.
  destruct (complete (store value st)) eqn:Hc.
  - rewrite (onResponse_completing value st _ Hc
               (within_expected_no_hole _ Hst' Hc)).
    cbn [fst snd]. unfold chunk_line. rewrite log_bind. cbn [snd].
    split; [apply deliver_returns|]. exists 0. by split.
  - rewrite onResponse_buffering; [|done]. by split.
Qed.

Lemma in_range_header_never_throws_witness :
  within_expected {| chunks := [Some Sample.A]; expectedChunks := Some 3 |}
  ∧ in_range_header (fragment 2 3 Sample.B)
      {| chunks := [Some Sample.A]; expectedChunks := Some 3 |}
  ∧ (onResponse (H := Sample.browser) (fragment 2 3 Sample.B)
       {| chunks := [Some Sample.A]; expectedChunks := Some 3 |}).2.2
    = inr ().
Proof.
  assert (within_expected
            {| chunks := [Some Sample.A]; expectedChunks := Some 3 |}) as Hst.
  { exists 3. split; [reflexivity|]. simpl. lia. }
  assert (in_range_header (fragment 2 3 Sample.B)
            {| chunks := [Some Sample.A]; expectedChunks := Some 3 |})
    as Hvalue.
  { exists 2, 3. split; [reflexivity|]. split; [lia|reflexivity]. }
  split; [exact Hst|]. split; [exact Hvalue|].
  exact (proj1 (in_range_header_never_throws (H := Sample.browser)
                  _ _ Hst Hvalue)).
Defined.

(** X3. A message whose first fragment was lost is dropped whole: from
    the idle state, fragments with an index other than 0 are stored but
    none of them completes anything. Each call only logs its chunk line,
    no handler runs and no exception is thrown, however many arrive. *)
Theorem lost_first_fragment_drops_message `{Browser}
    (values : list (list byte)) :
  Forall continuation values →
  (onResponses values idle).2 = chunk_line <$> values
  ∧ expectedChunks (onResponses values idle).1 = Some 0.
Proof.
  intros Hall. destruct Hall as [|value values Hvalue Hall]; [done|].
  destruct Hvalue as (i & Hi & Hne).
  assert (stalled (store value idle)) as Hst.
  { rewrite (store_next _ _ i); [|done..]. unfold stalled.
    cbn [expectedChunks idle]. rewrite receivedCount_present. cbn [chunks].
    rewrite array_present_set_length. simpl. lia. }
  rewrite onResponses_cons, onResponse_buffering;
    [|by apply stalled_incomplete].
  cbn [fst snd]. destruct (stalled_run values _ Hst Hall) as (-> & _ & Hexp).
  cbn [fst snd]. split; [done|].
  rewrite Hexp. by rewrite (store_next _ _ i).
Qed.

Lemma lost_first_fragment_drops_message_witness :
  Forall continuation [fragment 1 2 Sample.B; fragment 1 2 Sample.B]
  ∧ (onResponses (H := Sample.browser)
       [fragment 1 2 Sample.B; fragment 1 2 Sample.B] idle).2
    = [([Log (ChunkRecu (Some 2) (Some 2) 10) ""], inr ());
       ([Log (ChunkRecu (Some 2) (Some 2) 10) ""], inr ())].
Proof.
  assert (Forall continuation
            [fragment 1 2 Sample.B; fragment 1 2 Sample.B]) as Hall.
  { repeat constructor; exists 1; (split; [reflexivity|discriminate]). }
  split; [exact Hall|].
  exact (proj1 (lost_first_fragment_drops_message (H := Sample.browser)
                  _ Hall)).
Defined.


(** X4. A first fragment that announces no usable total, either total 0
    or a notification of the single byte 0 whose total reads as
    [undefined], starts a message that can never complete: that call and
    every later call for a fragment with an index other than 0 only logs
    its chunk line, whatever was buffered before. *)
Theorem first_fragment_without_total_never_completes `{Browser}
    (value : list byte) (values : list (list byte)) (st : Chunking) :
  chunkIndex value = Some 0 →
  totalChunks value = None ∨ totalChunks value = Some 0 →
  Forall continuation values →
  (onResponses (value :: values) st).2 = chunk_line <$> (value :: values).
Proof.
  intros Hi Ht Hall.
  assert (stalled (store value st)) as Hst.
  { rewrite store_first; [|done]. unfold stalled. cbn [expectedChunks].
    destruct Ht as [->| ->]; [done|]. by apply Nat.lt_0_1. }
  rewrite onResponses_cons, onResponse_buffering;
    [|by apply stalled_incomplete].
  cbn [fst snd]. by destruct (stalled_run values _ Hst Hall) as (-> & _ & _).
Qed.

Lemma first_fragment_without_total_never_completes_witness :
  chunkIndex [x00] = Some 0
  ∧ (totalChunks [x00] = None ∨ totalChunks [x00] = Some 0)
  ∧ Forall continuation [fragment 1 1 Sample.A]
  ∧ (onResponses (H := Sample.browser) [[x00]; fragment 1 1 Sample.A] idle).2
    = [([Log (ChunkRecu (Some 1) None 0) ""], inr ());
       ([Log (ChunkRecu (Some 2) (Some 1) 5) ""], inr ())].
Proof.
  assert (Forall continuation [fragment 1 1 Sample.A]) as Hall.
  { repeat constructor; exists 1; (split; [reflexivity|discriminate]). }
  split; [reflexivity|]. split; [left; reflexivity|]. split; [exact Hall|].
  exact (first_fragment_without_total_never_completes (H := Sample.browser)
           [x00] _ idle eq_refl (or_introl eq_refl) Hall).
Defined.

(** X5. Messages that follow one another, each cut into 1 to 255 slices
    and sent in index order, are all delivered, each exactly once and in
    the order sent: the answers of the run are those of the messages
    taken one by one, and the reassembler ends idle. *)
Theorem messages_in_sequence `{Browser} (messages : list (list (list byte)))
    (st : Chunking) :
  Forall (λ payloads, payloads ≠ [] ∧ length payloads ≤ 255) messages →
  (onResponses (concat (in_order <$> messages)) st).2
  = concat ((λ payloads,
               buffered_then_delivered (in_order payloads) (concat payloads))
            <$> messages)
  ∧ (messages ≠ [] →
     (onResponses (concat (in_order <$> messages)) st).1 = idle).
Proof.
  intros Hall. revert st.
  induction Hall as [|payloads messages [Hsome Hfits] _ IH]; intros st;
    [done|].
  rewrite !fmap_cons. cbn [concat].
  rewrite onResponses_app, onResponses_in_order; [|done..]. cbn [fst snd].
  destruct (IH idle) as [-> Hidle]. split; [done|]. intros _.
  destruct messages as [|payloads' messages]; [done|]. by apply Hidle.
Qed.

Lemma messages_in_sequence_witness :
  Forall (λ payloads : list (list byte), payloads ≠ [] ∧ length payloads ≤ 255)
    [[Sample.garbage]; [Sample.A; Sample.B]]
  ∧ (onResponses (H := Sample.browser)
       [fragment 0 1 Sample.garbage;
        fragment 0 2 Sample.A; fragment 1 2 Sample.B] idle).2
    = [([Log (ChunkRecu (Some 1) (Some 1) 8) "";
         Log (ErreurJSON "Unexpected token") "error"], inr ());
       ([Log (ChunkRecu (Some 1) (Some 2) 5) ""], inr ());
       ([Log (ChunkRecu (Some 2) (Some 2) 10) "";
         Log (Recu "pong") "";
         Log ConnexionVerifiee "success"], inr ())].
Proof.
  assert (Forall (λ payloads : list (list byte),
                    payloads ≠ [] ∧ length payloads ≤ 255)
            [[Sample.garbage]; [Sample.A; Sample.B]]) as Hall.
  { repeat constructor; (discriminate || (simpl; lia)). }
  split; [exact Hall|].
  exact (proj1 (messages_in_sequence (H := Sample.browser)
                  [[Sample.garbage]; [Sample.A; Sample.B]] idle Hall)).
Defined.

(** X6. A message that stops after its first [k] fragments, with at
    least one still missing, costs nothing but itself: those fragments
    are only logged, and the complete message that follows is delivered
    as if nothing had been buffered. *)
Theorem partial_message_then_next `{Browser} (partial next : list (list byte))
    (k : nat) (st : Chunking) :
  length partial ≤ 255 →
  k < length partial →
  next ≠ [] →
  length next ≤ 255 →
  onResponses (take k (in_order partial) ++ in_order next) st
  = (idle,
     (chunk_line <$> take k (in_order partial))
     ++ buffered_then_delivered (in_order next) (concat next)).
Proof.
  intros Hfits Hk Hsome Hfits'.
  rewrite onResponses_app, onResponses_in_order; [|done..].
  cbn [fst snd]. by rewrite onResponses_prefix.
Qed.

Lemma partial_message_then_next_witness :
  length [Sample.garbage; Sample.garbage; Sample.garbage] ≤ 255
  ∧ 2 < length [Sample.garbage; Sample.garbage; Sample.garbage]
  ∧ [Sample.A; Sample.B] ≠ []
  ∧ length [Sample.A; Sample.B] ≤ 255
  ∧ onResponses (H := Sample.browser)
      [fragment 0 3 Sample.garbage; fragment 1 3 Sample.garbage;
       fragment 0 2 Sample.A; fragment 1 2 Sample.B] idle
    = (idle,
       [([Log (ChunkRecu (Some 1) (Some 3) 8) ""], inr ());
        ([Log (ChunkRecu (Some 2) (Some 3) 8) ""], inr ());
        ([Log (ChunkRecu (Some 1) (Some 2) 5) ""], inr ());
        ([Log (ChunkRecu (Some 2) (Some 2) 10) "";
          Log (Recu "pong") "";
          Log ConnexionVerifiee "success"], inr ())]).
Proof.
  assert (length [Sample.garbage; Sample.garbage; Sample.garbage] ≤ 255)
    as Hfits by (simpl; lia).
  assert (2 < length [Sample.garbage; Sample.garbage; Sample.garbage])
    as Hk by (simpl; lia).
  assert ([Sample.A; Sample.B] ≠ []) as Hsome by discriminate.
  assert (length [Sample.A; Sample.B] ≤ 255) as Hfits' by (simpl; lia).
  split; [exact Hfits|]. split; [exact Hk|]. split; [exact Hsome|].
  split; [exact Hfits'|].
  exact (partial_message_then_next (H := Sample.browser)
           [Sample.garbage; Sample.garbage; Sample.garbage]
           [Sample.A; Sample.B] 2 idle Hfits Hk Hsome Hfits').
Defined.

(** ** The dispatcher on messages outside the protocol *)



(** X8. What the dispatcher or a UI handler throws never leaves the
    reassembler: once the text has parsed, an exception from
    [handleResponse] is caught, and it is reported under the label
    'Erreur JSON' after whatever the dispatcher had already logged or
    called. A message that is the JSON value [null] is reported this way
    for the failed read of its [type]. *)
Theorem dispatch_exception_reported_as_json_error `{Browser}
    (fullData : list byte) (response : jsval number) (e : exn) :
  JSON_parse (TextDecoder_decode fullData) = inr response →
  (handleResponse response).2 = inl e →
  deliver fullData
  = ((handleResponse response).1 ++ [Log (ErreurJSON (message e)) "error"],
     inr ())
  ∧ (response = VNull →
     deliver fullData
     = ([Log (ErreurJSON "Cannot read properties of null (reading 'type')")
           "error"], inr ())).
Proof.
  intros Hparse Hthrows.
  assert (deliver fullData
          = ((handleResponse response).1
             ++ [Log (ErreurJSON (message e)) "error"], inr ())) as Hdeliver.
  { unfold deliver. rewrite Hparse, lift_inr_bind.
    unfold try_catch. by rewrite Hthrows. }
  split; [exact Hdeliver|].
  intros ->. rewrite Hdeliver. injection Hthrows as <-. reflexivity.
Qed.

Lemma dispatch_exception_reported_as_json_error_witness :
  JSON_parse (Browser := Strict.browser)
    (TextDecoder_decode (Browser := Strict.browser)
       Strict.scan_without_networks)
  = inr (VObject [("type", VString "scan_result")])
  ∧ (handleResponse (H := Strict.browser)
       (VObject [("type", VString "scan_result")])).2
    = inl (TypeError "networks.forEach is not a function")
  ∧ deliver (H := Strict.browser) Strict.scan_without_networks
    = ([Log (Recu "scan_result") "";
        DisplayNetworks VUndefined;
        Log (ErreurJSON "networks.forEach is not a function") "error"],
       inr ()).
Proof.
  split; [reflexivity|]. split; [reflexivity|].
  exact (proj1 (dispatch_exception_reported_as_json_error
                  (H := Strict.browser) Strict.scan_without_networks
                  (VObject [("type", VString "scan_result")])
                  (TypeError "networks.forEach is not a function")
                  eq_refl eq_refl)).
Defined.

(** X9. A notification of zero bytes has no index, so nothing is stored
    and the globals stay as they are; at idle the count test passes all
    the same (0 slots populated, 0 expected), the empty byte sequence is
    decoded and parsed, and when the parser rejects that text the call
    logs an 'Erreur JSON' line for a message nobody sent. *)
Theorem empty_notification `{Browser} (st : Chunking) (e : exn) :
  JSON_parse (TextDecoder_decode []) = inl e →
  store [] st = st
  ∧ onResponse [] idle
    = (idle,
       ([Log (ChunkRecu None None 0) "";
         Log (ErreurJSON (message e)) "error"], inr ())).
Proof.
  intros Hparse. split; [by destruct st|].
  rewrite (onResponse_completing [] idle []); [|reflexivity..].
  cbn [concat]. unfold chunk_line. rewrite log_bind.
  by rewrite (deliver_parse_error _ e Hparse).
Qed.

Lemma empty_notification_witness :
  JSON_parse (Browser := Sample.browser)
    (TextDecoder_decode (Browser := Sample.browser) [])
  = inl (SyntaxError "Unexpected token")
  ∧ onResponse (H := Sample.browser) [] idle
    = (idle,
       ([Log (ChunkRecu None None 0) "";
         Log (ErreurJSON "Unexpected token") "error"], inr ())).
Proof.
  split; [reflexivity|].
  exact (proj2 (empty_notification (H := Sample.browser) idle
                  (SyntaxError "Unexpected token") eq_refl)).
Defined.

(** ** The log panel *)

Section PanelFacts.
Context {M : Type}.
Implicit Types (nodes logDiv : list (Dom.node M)) (n : Dom.node M).

Lemma children_length_snoc nodes n :
  Dom.children_length (nodes ++ [n])
  = Dom.children_length nodes + (if Dom.is_element n then 1 else 0).
Proof.
  unfold Dom.children_length. rewrite List.filter_app, length_app. simpl.
  by destruct (Dom.is_element n).
Qed.

Lemma children_length_le nodes : Dom.children_length nodes ≤ length nodes.
Proof. unfold Dom.children_length. apply List.filter_length_le. Qed.

Lemma children_length_elements nodes :
  Forall (λ n, Dom.is_element n = true) nodes →
  Dom.children_length nodes = length nodes.
Proof.
  unfold Dom.children_length.
  induction 1 as [|n nodes Hn _ IH]; [done|]. simpl. rewrite Hn. simpl.
  by rewrite IH.
Qed.

(** The loop stops by its test when it may turn once per node: it leaves
    50 elements if there were more, and it only removes from the end. *)
Lemma trim_enough fuel nodes :
  length nodes ≤ fuel →
  Dom.children_length (Dom.trim fuel nodes)
  = Dom.children_length nodes `min` 50
  ∧ Dom.trim fuel nodes `prefix_of` nodes.
Proof.
  revert nodes. induction fuel as [|fuel IH]; intros nodes Hfuel.
  - apply Nat.le_0_r, nil_length_inv in Hfuel as ->. by split.
  - simpl. destruct (decide (50 < Dom.children_length nodes)) as [Hmore|Hfew].
    + destruct nodes as [|n0 nodes0] using rev_ind;
        [unfold Dom.children_length in Hmore; simpl in Hmore; lia|].
      clear IHnodes0. rewrite removelast_last.
      rewrite children_length_snoc in *. rewrite length_app in Hfuel.
      simpl in Hfuel.
      destruct (IH nodes0 ltac:(lia)) as [Hcount Hprefix]. split.
      * rewrite Hcount. destruct (Dom.is_element n0); lia.
      * etrans; [exact Hprefix|]. by apply prefix_app_r.
    + split; [lia|done].
Qed.

Lemma log_elements now (message : M) type logDiv :
  Forall (λ n, Dom.is_element n = true) logDiv →
  Dom.log now message type logDiv
  = take 50 (Dom.Entry ("log-entry " +:+ type) now message :: logDiv).
Proof.
  intros Hall. unfold Dom.log.
  set (nodes := Dom.Entry _ now message :: logDiv).
  assert (Forall (λ n, Dom.is_element n = true) nodes) as Hnodes
    by (by constructor).
  destruct (trim_enough (length nodes) nodes) as [Hcount [rest Hrest]]; [done|].
  assert (Forall (λ n, Dom.is_element n = true) (Dom.trim (length nodes) nodes))
    as Hkept.
  { rewrite Hrest in Hnodes. by apply Forall_app in Hnodes as [? _]. }
  rewrite !children_length_elements in Hcount by done.
  clear Hkept Hnodes. revert Hcount Hrest.
  generalize (Dom.trim (length nodes) nodes). intros kept Hcount Hrest.
  rewrite Hrest in *. rewrite length_app in Hcount.
  destruct (decide (length kept + length rest ≤ 50)) as [Hfew|Hmore].
  - assert (rest = []) as -> by (apply nil_length_inv; lia).
    rewrite app_nil_r, take_ge; [done|lia].
  - by rewrite take_app_length' by lia.
Qed.

Lemma take_app_take {A} (k : nat) (l1 l2 : list A) :
  take k (l1 ++ take k l2) = take k (l1 ++ l2).
Proof. rewrite !take_app, take_take. f_equal. f_equal. lia. Qed.

End PanelFacts.

(** X10. The log panel never grows past 50 entries: whatever it held,
    after [log] it has one element more than before or 50 of them,
    whichever is less; the new entry is its first child, and the rest
    is what was there, cut at the end only. *)
Theorem log_keeps_fifty_entries {M : Type} (now : string) (message : M)
    (type : string) (logDiv : list (Dom.node M)) :
  Dom.children_length (Dom.log now message type logDiv)
  = S (Dom.children_length logDiv) `min` 50
  ∧ ∃ kept,
      Dom.log now message type logDiv
      = Dom.Entry ("log-entry " +:+ type) now message :: kept
      ∧ kept `prefix_of` logDiv.
Proof.
  unfold Dom.log.
  set (entry := Dom.Entry ("log-entry " +:+ type) now message).
  destruct (trim_enough (length (entry :: logDiv)) (entry :: logDiv))
    as [Hcount Hprefix]; [done|].
  change (Dom.children_length (entry :: logDiv))
    with (S (Dom.children_length logDiv)) in Hcount.
  split; [exact Hcount|].
  destruct (Dom.trim _ _) as [|first kept] eqn:Hkept.
  - change (Dom.children_length []) with 0 in Hcount. lia.
  - apply prefix_cons_inv_1 in Hprefix as Hfirst.
    apply prefix_cons_inv_2 in Hprefix. subst first. by exists kept.
Qed.

(** X11. A panel that holds only entries, at most 50 of them, shows the
    50 most recent messages, newest first: after any number of calls of
    [log] it is the entries of those calls in reverse order, followed by
    the entries it held, cut after the 50th. *)
Theorem log_shows_fifty_most_recent {M : Type}
    (calls : list (string * M * string)) (logDiv : list (Dom.node M)) :
  Forall (λ n, Dom.is_element n = true) logDiv →
  length logDiv ≤ 50 →
  Dom.logs calls logDiv
  = take 50 (reverse (Dom.entry_of <$> calls) ++ logDiv).
Proof.
  revert logDiv. induction calls as [|[[now message] type] calls IH];
    intros logDiv Hall Hlen.
  - simpl. by rewrite take_ge.
  - change (Dom.logs (((now, message), type) :: calls) logDiv)
      with (Dom.logs calls (Dom.log now message type logDiv)).
    rewrite log_elements by done.
    rewrite IH.
    + rewrite take_app_take, fmap_cons, reverse_cons.
      by rewrite <- (assoc_L (++)).
    + apply Forall_take. by constructor.
    + rewrite length_take. lia.
Qed.

Lemma log_shows_fifty_most_recent_witness :
  Forall (λ n : Dom.node nat, Dom.is_element n = true)
    [Dom.Entry "log-entry " "09:00:00" 0]
  ∧ length [Dom.Entry "log-entry " "09:00:00" 0] ≤ 50
  ∧ Dom.logs [("09:00:01", 1, "success"); ("09:00:02", 2, "error")]
      [Dom.Entry "log-entry " "09:00:00" 0]
    = [Dom.Entry "log-entry error" "09:00:02" 2;
       Dom.Entry "log-entry success" "09:00:01" 1;
       Dom.Entry "log-entry " "09:00:00" 0].
Proof.
  assert (Forall (λ n : Dom.node nat, Dom.is_element n = true)
            [Dom.Entry "log-entry " "09:00:00" 0]) as Hall
    by (repeat constructor).
  assert (length [Dom.Entry "log-entry " "09:00:00" 0] ≤ 50) as Hlen
    by (simpl; lia).
  split; [exact Hall|]. split; [exact Hlen|].
  exact (log_shows_fifty_most_recent
           [("09:00:01", 1, "success"); ("09:00:02", 2, "error")]
           [Dom.Entry "log-entry " "09:00:00" 0] Hall Hlen).
Defined.

(** ** Signal strength *)

(** X12. The strength of a signal is one of the levels 1 to 4, and a
    stronger signal never gets a lower level. *)
Theorem rssiToStrength_monotone (rssi rssi' : Z) :
  (rssi ≤ rssi')%Z →
  (1 ≤ Signal.rssiToStrength rssi ≤ 4)%Z
  ∧ (Signal.rssiToStrength rssi ≤ Signal.rssiToStrength rssi')%Z.
Proof.
  intros Hle. unfold Signal.rssiToStrength.
  repeat case_decide; lia.
Qed.

Lemma rssiToStrength_monotone_witness :
  (-65 ≤ -55)%Z
  ∧ (Signal.rssiToStrength (-65) ≤ Signal.rssiToStrength (-55))%Z.
Proof.
  assert (-65 ≤ -55)%Z as Hle by lia.
  split; [exact Hle|].
  exact (proj2 (rssiToStrength_monotone (-65) (-55) Hle)).
Defined.

(** X13. The markup of [getSignalBars] has four bars; the first ones, as
    many as the strength of the signal, are active and the others are
    not. *)
Theorem getSignalBars_active_prefix (rssi : Z) :
  Signal.getSignalBars rssi
  = "<div class=" +:+ Sample.quote +:+ "signal-bars" +:+ Sample.quote +:+ ">"
    +:+ String.concat ""
          (replicate (Z.to_nat (Signal.rssiToStrength rssi))
             (Signal.signal_bar true)
           ++ replicate (4 - Z.to_nat (Signal.rssiToStrength rssi))
                (Signal.signal_bar false))
    +:+ "</div>".
Proof.
  unfold Signal.getSignalBars, Signal.rssiToStrength.
  repeat case_decide; vm_compute; reflexivity.
Qed.

(** ** The page *)

Section ActFacts.
Context `{Page.Platform}.
Implicit Types (p : Page.State) (c : Page.call).

Lemma bind_modify {B} (f : Page.State → Page.State) (k : unit → Page.Act B) p :
  (Page.modify f ≫= k) p = k () (f p).
Proof.
  unfold mbind, Page.act_mbind, Page.act_bind, Page.modify.
  by destruct (k () (f p)) as [p2 [calls r]].
Qed.

Lemma bind_read {A B} (f : Page.State → A) (k : A → Page.Act B) p :
  (Page.read f ≫= k) p = k (f p) p.
Proof.
  unfold mbind, Page.act_mbind, Page.act_bind, Page.read.
  by destruct (k (f p) p) as [p2 [calls r]].
Qed.

Lemma bind_await_inr {A B} c (x : A) (k : A → Page.Act B) p :
  (Page.await c (inr x) ≫= k) p
  = match k x p with
    | (p2, (calls, r)) => (p2, (c :: calls, r))
    end.
Proof. reflexivity. Qed.

Lemma bind_await_inl {A B} c (e : exn) (k : A → Page.Act B) p :
  (Page.await c (inl e) ≫= k) p = (p, ([c], inl e)).
Proof. reflexivity. Qed.

Lemma bind_say {B} m type (k : unit → Page.Act B) p :
  (Page.say m type ≫= k) p
  = match k () p with
    | (p2, (calls, r)) => (p2, (Page.Say m type :: calls, r))
    end.
Proof. reflexivity. Qed.

Lemma bind_attempt_inr {A B} (x : A) (k : A → Page.Act B) p :
  (Page.attempt (inr x) ≫= k) p = k x p.
Proof.
  unfold mbind, Page.act_mbind, Page.act_bind, Page.attempt.
  by destruct (k x p) as [p2 [calls r]].
Qed.

Lemma bind_attempt_inl {A B} (e : exn) (k : A → Page.Act B) p :
  (Page.attempt (inl e) ≫= k) p = (p, ([], inl e)).
Proof. reflexivity. Qed.

Lemma bind_returned {A B} (m : Page.Act A) (k : A → Page.Act B) p p1 calls1 x :
  m p = (p1, (calls1, inr x)) →
  (m ≫= k) p
  = match k x p1 with
    | (p2, (calls2, r)) => (p2, (calls1 ++ calls2, r))
    end.
Proof.
  intros Hm. unfold mbind, Page.act_mbind, Page.act_bind. by rewrite Hm.
Qed.

Lemma bind_thrown {A B} (m : Page.Act A) (k : A → Page.Act B) p p1 calls1 e :
  m p = (p1, (calls1, inl e)) → (m ≫= k) p = (p1, (calls1, inl e)).
Proof.
  intros Hm. unfold mbind, Page.act_mbind, Page.act_bind. by rewrite Hm.
Qed.

Lemma send_eq cmd p :
  Page.send cmd p
  = (p, (Page.Core <$> (sendCommand (Page.commandChar p) cmd).1,
         (sendCommand (Page.commandChar p) cmd).2)).
Proof. unfold Page.send. by rewrite bind_read. Qed.

Lemma update_same i f (dom : Page.Dom) : Page.update i f dom i = f (dom i).
Proof. unfold Page.update. by rewrite decide_True. Qed.

Lemma update_other i j f (dom : Page.Dom) :
  j ≠ i → Page.update i f dom j = dom j.
Proof. intros Hne. unfold Page.update. by rewrite decide_False. Qed.

Lemma classList_add_in token (e : Page.Element) :
  token ∈ Page.classList (Page.classList_add token e).
Proof.
  unfold Page.classList_add. cbn [Page.classList]. case_decide; [done|].
  apply elem_of_app. right. by apply list_elem_of_singleton.
Qed.

Lemma classList_add_idem token (e : Page.Element) :
  Page.classList_add token (Page.classList_add token e)
  = Page.classList_add token e.
Proof.
  unfold Page.classList_add at 1. cbn [Page.textContent Page.disabled].
  rewrite decide_True by apply classList_add_in. by destruct e.
Qed.

Lemma classList_remove_out token (e : Page.Element) :
  token ∉ Page.classList (Page.classList_remove token e).
Proof.
  unfold Page.classList_remove. cbn [Page.classList].
  intros [Hne _]%list_elem_of_filter. by apply Hne.
Qed.

Lemma classList_remove_idem token (e : Page.Element) :
  Page.classList_remove token (Page.classList_remove token e)
  = Page.classList_remove token e.
Proof.
  unfold Page.classList_remove. cbn [Page.classList Page.textContent Page.disabled].
  f_equal. induction (Page.classList e) as [|c l IH]; [done|].
  rewrite filter_cons. case_decide.
  - rewrite filter_cons, decide_True by done. by rewrite IH.
  - exact IH.
Qed.

(** What [setConnected] does to each element. *)
Lemma setConnected_true_at (dom : Page.Dom) j :
  Page.setConnected true dom j
  = match j with
    | Page.connectionStatus =>
        Page.set_className ["status"; "connected"] (dom j)
    | Page.statusText | Page.connectBtn =>
        Page.set_textContent "Connecté" (dom j)
    | Page.controlsSection => Page.classList_remove "hidden" (dom j)
    | _ => dom j
    end.
Proof.
  destruct j; unfold Page.setConnected; cbv zeta;
    by repeat first [rewrite update_same
                    | rewrite update_other by discriminate].
Qed.

Lemma setConnected_false_at (dom : Page.Dom) j :
  Page.setConnected false dom j
  = match j with
    | Page.connectionStatus =>
        Page.set_className ["status"; "disconnected"] (dom j)
    | Page.statusText => Page.set_textContent "Déconnecté" (dom j)
    | Page.connectBtn =>
        Page.set_disabled false
          (Page.set_textContent "Connecter au Pi" (dom j))
    | Page.controlsSection | Page.networksSection | Page.monitorSection
    | Page.channelsSection => Page.classList_add "hidden" (dom j)
    | _ => dom j
    end.
Proof.
  destruct j; unfold Page.setConnected; cbv zeta;
    by repeat first [rewrite update_same
                    | rewrite update_other by discriminate].
Qed.

End ActFacts.

(** X14. [setConnected] can be repeated without effect: calling it a
    second time with the same argument changes no element. With [false]
    the connect button is enabled again and the controls and the three
    result sections are all hidden, whatever the page showed; with
    [true] only the controls are revealed: the result sections and the
    button's disabled flag stay as they were. *)
Theorem setConnected_idempotent (connected : bool) (dom : Page.Dom)
    (i : Page.id) :
  Page.setConnected connected (Page.setConnected connected dom) i
  = Page.setConnected connected dom i
  ∧ Page.disabled (Page.setConnected false dom Page.connectBtn) = false
  ∧ (i ∈ [Page.controlsSection; Page.networksSection; Page.monitorSection;
          Page.channelsSection] →
     "hidden" ∈ Page.classList (Page.setConnected false dom i))
  ∧ ("hidden"
     ∉ Page.classList (Page.setConnected true dom Page.controlsSection))
  ∧ (i ∈ [Page.networksSection; Page.monitorSection; Page.channelsSection] →
     Page.setConnected true dom i = dom i)
  ∧ Page.disabled (Page.setConnected true dom Page.connectBtn)
    = Page.disabled (dom Page.connectBtn).
Proof.
  split; [|split; [|split; [|split; [|split]]]].
  - destruct connected.
    + rewrite !setConnected_true_at.
      destruct i; first [reflexivity | apply classList_remove_idem].
    + rewrite !setConnected_false_at.
      destruct i; first [reflexivity | apply classList_add_idem].
  - by rewrite setConnected_false_at.
  - intros Hi. rewrite setConnected_false_at.
    repeat (apply elem_of_cons in Hi as [->|Hi]);
      [..|by apply elem_of_nil in Hi]; apply classList_add_in.
  - rewrite setConnected_true_at. apply classList_remove_out.
  - intros Hi. rewrite setConnected_true_at.
    repeat (apply elem_of_cons in Hi as [->|Hi]);
      [..|by apply elem_of_nil in Hi]; reflexivity.
  - by rewrite setConnected_true_at.
Qed.

Lemma setConnected_idempotent_witness :
  Page.networksSection
  ∈ [Page.controlsSection; Page.networksSection; Page.monitorSection;
     Page.channelsSection]
  ∧ "hidden"
    ∈ Page.classList (Page.setConnected false Bench.blank Page.networksSection).
Proof.
  assert (Page.networksSection
          ∈ [Page.controlsSection; Page.networksSection; Page.monitorSection;
             Page.channelsSection]) as Hi
    by (apply list_elem_of_further, list_elem_of_here).
  split; [exact Hi|].
  exact (proj1 (proj2 (proj2 (setConnected_idempotent false Bench.blank
                                Page.networksSection))) Hi).
Defined.

Section ConnectFacts.
Context `{Page.Platform}.
Implicit Types (p : Page.State).

Lemma bind_core_log {B} m type (k : unit → Page.Act B) p :
  (Page.core (log m type) ≫= k) p
  = match k () p with
    | (p2, (calls, r)) => (p2, (Page.Core (Log m type) :: calls, r))
    end.
Proof. reflexivity. Qed.

Lemma sendCommand_connected (c : characteristic) (cmd : jsval number) :
  sendCommand (Some c) cmd
  = ([Log (Envoi (default "undefined" (JSON_stringify cmd))) "";
      WriteValue c (TextEncoder_encode (default "" (JSON_stringify cmd)))],
     match writeValue c (TextEncoder_encode (default "" (JSON_stringify cmd)))
     with
     | Some e => inl e
     | None => inr ()
     end).
Proof. reflexivity. Qed.

End ConnectFacts.

Ltac act_step :=
  first [ rewrite bind_modify | rewrite bind_read | rewrite bind_say
        | rewrite bind_await_inr | rewrite bind_await_inl
        | rewrite bind_attempt_inr | rewrite bind_attempt_inl
        | rewrite bind_core_log | rewrite send_eq ];
  cbv beta.

Ltac act_run :=
  repeat act_step; unfold Page.modify; cbv beta iota;
  cbn [fst snd app Page.dom Page.device Page.server Page.commandChar
       Page.responseChar Page.signalData Page.chart_labels Page.chart_data
       Page.set_dom Page.set_device Page.set_server Page.set_commandChar
       Page.set_responseChar Page.set_signalData Page.set_chart].


Section ConnectCases.
Context `{Page.Platform}.
Implicit Types (p q : Page.State) (calls : list Page.call).


End ConnectCases.




(** X16. Once [connect] has got the command characteristic, the global
    [commandChar] keeps it whatever happens next: also when the response
    characteristic is not found and the page therefore shows
    disconnected, a command sent afterwards is not refused with
    'Non connecté' but written to that characteristic. *)
Theorem connect_failure_keeps_commandChar `{Page.Platform} (p : Page.State)
    (d : Page.Device) (s : Page.Server) (service : Page.Service)
    (c : characteristic) (cmd : jsval number) :
  Page.bluetooth = true →
  Page.requestDevice = inr d →
  Page.gatt_connect d = inr s →
  Page.getPrimaryService s Page.SERVICE_UUID = inr service →
  Page.getCharacteristic service Page.COMMAND_UUID = inr c →
  Page.commandChar (Page.connect p).1 = Some c
  ∧ (Page.send cmd (Page.connect p).1).2.1
    = [Page.Core (Log (Envoi (default "undefined" (JSON_stringify cmd))) "");
       Page.Core
         (WriteValue c (TextEncoder_encode (default "" (JSON_stringify cmd))))]
  ∧ (∀ e, Page.getCharacteristic service Page.RESPONSE_UUID = inl e →
          Page.classList (Page.dom (Page.connect p).1 Page.connectionStatus)
          = ["status"; "disconnected"]).
Proof.
  intros Hb Hd Hs Hservice Hc.
  assert (Page.commandChar (Page.connect p).1 = Some c
          ∧ (∀ e, Page.getCharacteristic service Page.RESPONSE_UUID = inl e →
                  Page.classList
                    (Page.dom (Page.connect p).1 Page.connectionStatus)
                  = ["status"; "disconnected"])) as [Hkept Hshown].
  { unfold Page.connect. rewrite Hb. cbn [negb]. unfold Page.act_try_catch.
    repeat act_step. rewrite Hd. repeat act_step. rewrite Hs.
    repeat act_step. rewrite Hservice. repeat act_step. rewrite Hc.
    repeat act_step.
    destruct (Page.getCharacteristic service Page.RESPONSE_UUID) as [e|r].
    { act_run. split; [reflexivity|]. intros _ _.
      by rewrite setConnected_false_at. }
    repeat act_step.
    destruct (Page.startNotifications r) as [e|];
      [act_run; split; [reflexivity|discriminate]|].
    repeat act_step.
    cbn [Page.commandChar Page.set_dom Page.set_responseChar
         Page.set_commandChar].
    rewrite sendCommand_connected. cbn [fst snd fmap list_fmap].
    destruct (writeValue c _) as [e|];
      act_run; (split; [reflexivity|discriminate]). }
  split; [exact Hkept|]. split; [|exact Hshown].
  rewrite send_eq, Hkept, sendCommand_connected. reflexivity.
Qed.

Lemma connect_failure_keeps_commandChar_witness :
  Page.bluetooth (Platform := Bench.platform false) = true
  ∧ Page.requestDevice (Platform := Bench.platform false) = inr ()
  ∧ Page.gatt_connect (Platform := Bench.platform false) () = inr ()
  ∧ Page.getPrimaryService (Platform := Bench.platform false) ()
      Page.SERVICE_UUID = inr ()
  ∧ Page.getCharacteristic (Platform := Bench.platform false) ()
      Page.COMMAND_UUID = inr ()
  ∧ Page.commandChar
      (Page.connect (H0 := Bench.platform false) (Bench.loaded false)).1
    = Some ().
Proof.
  split; [reflexivity|]. split; [reflexivity|]. split; [reflexivity|].
  split; [reflexivity|]. split; [reflexivity|].
  exact (proj1 (connect_failure_keeps_commandChar (H0 := Bench.platform false)
                  (Bench.loaded false) () () () () VNull
                  eq_refl eq_refl eq_refl eq_refl eq_refl)).
Defined.

(** X17. A disconnection only changes what the page shows:
    [onDisconnected] logs it and puts the page in its disconnected
    look, and leaves [commandChar] as it was. A command sent after the
    device has gone is therefore still written to the old
    characteristic; the 'Non connecté' guard does not see the
    disconnection. *)
Theorem disconnection_keeps_commandChar `{Page.Platform} (p : Page.State)
    (c : characteristic) (cmd : jsval number) :
  Page.commandChar p = Some c →
  Page.onDisconnected p
  = (Page.set_dom (Page.setConnected false) p,
     ([Page.Say Page.Deconnecte "error"], inr ()))
  ∧ Page.commandChar (Page.onDisconnected p).1 = Some c
  ∧ (Page.send cmd (Page.onDisconnected p).1).2.1
    = [Page.Core (Log (Envoi (default "undefined" (JSON_stringify cmd))) "");
       Page.Core
         (WriteValue c (TextEncoder_encode (default "" (JSON_stringify cmd))))].
Proof.
  intros Hc.
  assert (Page.onDisconnected p
          = (Page.set_dom (Page.setConnected false) p,
             ([Page.Say Page.Deconnecte "error"], inr ()))) as Heq
    by reflexivity.
  split; [exact Heq|]. rewrite Heq. cbn [fst]. split; [exact Hc|].
  rewrite send_eq. cbn [Page.commandChar Page.set_dom].
  rewrite Hc, sendCommand_connected. reflexivity.
Qed.

Lemma disconnection_keeps_commandChar_witness :
  Page.commandChar
    (Page.connect (H0 := Bench.platform true) (Bench.loaded true)).1
  = Some ()
  ∧ (Page.send (H0 := Bench.platform true) (Page.command "scan")
       (Page.onDisconnected (H0 := Bench.platform true)
          (Page.connect (H0 := Bench.platform true) (Bench.loaded true)).1).1).2.1
    = [Page.Core (H0 := Bench.platform true) (Log (Envoi "null") "");
       Page.Core (H0 := Bench.platform true)
         (WriteValue (H := Sample.browser) ()
            (String.list_byte_of_string "null"))].
Proof.
  assert (Page.commandChar
            (Page.connect (H0 := Bench.platform true) (Bench.loaded true)).1
          = Some ()) as Hc by (vm_compute; reflexivity).
  split; [exact Hc|].
  exact (proj2 (proj2 (disconnection_keeps_commandChar
                         (H0 := Bench.platform true) _ ()
                         (Page.command "scan") Hc))).
Defined.


(** ** The signal monitor *)

Section SignalFacts.
Context `{Page.Platform}.
Implicit Types (p : Page.State) (points : list Page.Point).

Lemma updateSignalChart_eq p :
  Page.updateSignalChart p
  = (Page.set_chart
       ((λ d, Page.toLocaleTimeString (Page.time d)) <$> Page.signalData p)
       (Page.rssi <$> Page.signalData p) p,
     ([Page.ChartUpdate
         ((λ d, Page.toLocaleTimeString (Page.time d)) <$> Page.signalData p)
         (Page.rssi <$> Page.signalData p)],
      match Page.Chart_update
              ((λ d, Page.toLocaleTimeString (Page.time d))
               <$> Page.signalData p)
              (Page.rssi <$> Page.signalData p)
      with
      | Some e => inl e
      | None => inr ()
      end)).
Proof. unfold Page.updateSignalChart. by repeat act_step. Qed.

Lemma updateSignal_no_reading data p e :
  Page.reading_of data = inl e → Page.updateSignal data p = (p, ([], inl e)).
Proof. intros He. unfold Page.updateSignal. rewrite He. by repeat act_step. Qed.

Lemma updateSignal_no_point data p reading e :
  Page.reading_of data = inr reading →
  Page.point_of data = inl e →
  Page.updateSignal data p
  = (Page.set_dom
       (Page.update Page.currentRssi (Page.set_textContent reading)) p,
     ([], inl e)).
Proof.
  intros Hr He. unfold Page.updateSignal. rewrite Hr, He. by repeat act_step.
Qed.

Lemma updateSignal_point data p reading point :
  Page.reading_of data = inr reading →
  Page.point_of data = inr point →
  Page.updateSignal data p
  = Page.updateSignalChart
      (Page.set_signalData (Page.push_point point (Page.signalData p))
         (Page.set_dom
            (Page.update Page.currentRssi (Page.set_textContent reading)) p)).
Proof.
  intros Hr Hp. unfold Page.updateSignal. rewrite Hr, Hp. by repeat act_step.
Qed.

Lemma updateSignal_signalData data p :
  Page.signalData (Page.updateSignal data p).1
  = match Page.reading_of data, Page.point_of data with
    | inr _, inr point => Page.push_point point (Page.signalData p)
    | _, _ => Page.signalData p
    end.
Proof.
  destruct (Page.reading_of data) as [e|reading] eqn:Hr.
  - by rewrite (updateSignal_no_reading _ _ e).
  - destruct (Page.point_of data) as [e|point] eqn:Hp.
    + by rewrite (updateSignal_no_point _ _ reading e).
    + by rewrite (updateSignal_point _ _ reading point), updateSignalChart_eq.
Qed.

Lemma push_point_length point points :
  length points ≤ Page.MAX_SIGNAL_POINTS →
  length (Page.push_point point points) ≤ Page.MAX_SIGNAL_POINTS.
Proof.
  unfold Page.push_point, Page.MAX_SIGNAL_POINTS. intros Hlen.
  case_decide; [rewrite length_drop|]; rewrite length_app in *; simpl in *; lia.
Qed.

Lemma push_point_drop point points :
  length points ≤ Page.MAX_SIGNAL_POINTS →
  Page.push_point point points
  = drop (length (points ++ [point]) - Page.MAX_SIGNAL_POINTS)
      (points ++ [point]).
Proof.
  unfold Page.push_point, Page.MAX_SIGNAL_POINTS. intros Hlen.
  case_decide as Hmore; rewrite length_app in *; cbn [length] in *.
  - by replace (length points + 1 - 30) with 1 by lia.
  - by replace (length points + 1 - 30) with 0 by lia.
Qed.

End SignalFacts.

(** X19. The monitor never keeps more than [MAX_SIGNAL_POINTS] points:
    if [signalData] holds at most 30 of them, it still does after any
    run of [signal] messages, well formed or not, whether the calls
    return or throw. *)
Theorem signal_window_bounded `{Page.Platform}
    (datas : list (jsval number)) (p : Page.State) :
  length (Page.signalData p) ≤ Page.MAX_SIGNAL_POINTS →
  length (Page.signalData (Page.updateSignals datas p))
  ≤ Page.MAX_SIGNAL_POINTS.
Proof.
  revert p. induction datas as [|data datas IH]; intros p Hlen; [done|].
  change (Page.updateSignals (data :: datas) p)
    with (Page.updateSignals datas (Page.updateSignal data p).1).
  apply IH. rewrite updateSignal_signalData.
  destruct (Page.reading_of data); [done|].
  destruct (Page.point_of data); [done|]. by apply push_point_length.
Qed.

Lemma signal_window_bounded_witness :
  length (Page.signalData (Bench.loaded true)) ≤ Page.MAX_SIGNAL_POINTS
  ∧ length
      (Page.signalData
         (Page.updateSignals (H0 := Bench.platform true)
            [Bench.signal "-40" "1"; VNull; Bench.signal "-41" "2"]
            (Bench.loaded true)))
    ≤ Page.MAX_SIGNAL_POINTS.
Proof.
  assert (length (Page.signalData (Bench.loaded true))
          ≤ Page.MAX_SIGNAL_POINTS) as Hlen by (vm_compute; lia).
  split; [exact Hlen|].
  exact (signal_window_bounded (H0 := Bench.platform true)
           [Bench.signal "-40" "1"; VNull; Bench.signal "-41" "2"]
           (Bench.loaded true) Hlen).
Defined.

(** X20. The monitor is a sliding window over the readings: after a run
    of [signal] messages that each give a reading and a point,
    [signalData] is the points it held followed by the new ones in
    arrival order, without the oldest ones beyond the last 30; and
    after each such message the chart shows exactly the points kept,
    label for label and value for value. *)
Theorem signal_window_slides `{Page.Platform}
    (datas : list (jsval number)) (points : list Page.Point)
    (p : Page.State) :
  Forall2 (λ data point,
             (∃ reading, Page.reading_of data = inr reading)
             ∧ Page.point_of data = inr point) datas points →
  length (Page.signalData p) ≤ Page.MAX_SIGNAL_POINTS →
  Page.signalData (Page.updateSignals datas p)
  = drop (length (Page.signalData p ++ points) - Page.MAX_SIGNAL_POINTS)
      (Page.signalData p ++ points)
  ∧ (datas ≠ [] →
     Page.chart_data (Page.updateSignals datas p)
     = Page.rssi <$> Page.signalData (Page.updateSignals datas p)
     ∧ Page.chart_labels (Page.updateSignals datas p)
       = (λ d, Page.toLocaleTimeString (Page.time d))
         <$> Page.signalData (Page.updateSignals datas p)).
Proof.
  intros Hall. revert p.
  induction Hall as [|data point datas points [[reading Hr] Hp] Hall IH];
    intros p Hlen.
  - split; [|done]. rewrite app_nil_r.
    replace (length (Page.signalData p) - Page.MAX_SIGNAL_POINTS) with 0 by lia.
    reflexivity.
  - change (Page.updateSignals (data :: datas) p)
      with (Page.updateSignals datas (Page.updateSignal data p).1).
    assert (Page.signalData (Page.updateSignal data p).1
            = Page.push_point point (Page.signalData p)) as Hafter
      by (by rewrite updateSignal_signalData, Hr, Hp).
    destruct (IH (Page.updateSignal data p).1) as [Hdata Hchart].
    { rewrite Hafter. by apply push_point_length. }
    split.
    + rewrite Hdata, Hafter, push_point_drop by done.
      rewrite <- drop_app_le by (rewrite length_app; simpl; lia).
      rewrite drop_drop, <- (assoc_L (++)). simpl. f_equal.
      rewrite length_drop, !length_app. simpl.
      unfold Page.MAX_SIGNAL_POINTS in *. lia.
    + intros _. destruct datas as [|data' datas]; [|by apply Hchart].
      change (Page.updateSignals [] ?q) with q.
      rewrite (updateSignal_point _ _ reading point), updateSignalChart_eq
        by done.
      by split.
Qed.

Lemma signal_window_slides_witness :
  Forall2 (λ data point,
             (∃ reading,
                Page.reading_of (H := Sample.browser) data = inr reading)
             ∧ Page.point_of (H0 := Bench.platform true) data = inr point)
    [Bench.signal "-40" "1"; Bench.signal "-41" "2"]
    [Bench.point true "-40" "1"; Bench.point true "-41" "2"]
  ∧ length (Page.signalData (Bench.loaded true)) ≤ Page.MAX_SIGNAL_POINTS
  ∧ Page.signalData
      (Page.updateSignals (H0 := Bench.platform true)
         [Bench.signal "-40" "1"; Bench.signal "-41" "2"] (Bench.loaded true))
    = [Bench.point true "-40" "1"; Bench.point true "-41" "2"].
Proof.
  assert (Forall2 (λ data point,
             (∃ reading,
                Page.reading_of (H := Sample.browser) data = inr reading)
             ∧ Page.point_of (H0 := Bench.platform true) data = inr point)
            [Bench.signal "-40" "1"; Bench.signal "-41" "2"]
            [Bench.point true "-40" "1"; Bench.point true "-41" "2"])
    as Hall.
  { repeat constructor; eexists; reflexivity. }
  assert (length (Page.signalData (Bench.loaded true))
          ≤ Page.MAX_SIGNAL_POINTS) as Hlen by (vm_compute; lia).
  split; [exact Hall|]. split; [exact Hlen|].
  exact (proj1 (signal_window_slides (H0 := Bench.platform true)
                  _ _ (Bench.loaded true) Hall Hlen)).
Defined.

(** X21. Starting a monitor starts from an empty window: whatever points
    were kept, [startMonitor] reveals the monitor section, shows the
    name, empties [signalData] and the chart, and, when the chart has
    redrawn, hands [{ cmd: "monitor", ssid }] to [sendCommand]; if the
    redraw throws, the command is not sent. *)
Theorem startMonitor_resets_window `{Page.Platform} (p : Page.State)
    (ssid : jsval number) (text : string) :
  Page.text_of ssid = inr text →
  Page.signalData (Page.startMonitor ssid p).1 = []
  ∧ Page.chart_labels (Page.startMonitor ssid p).1 = []
  ∧ Page.chart_data (Page.startMonitor ssid p).1 = []
  ∧ ("hidden"
     ∉ Page.classList (Page.dom (Page.startMonitor ssid p).1 Page.monitorSection))
  ∧ Page.textContent (Page.dom (Page.startMonitor ssid p).1 Page.monitorSsid)
    = text
  ∧ (Page.Chart_update [] [] = None →
     (Page.startMonitor ssid p).2
     = (Page.ChartUpdate [] []
        :: (Page.Core
            <$> (sendCommand (Page.commandChar p)
                   (VObject [("cmd", VString "monitor"); ("ssid", ssid)])).1),
        (sendCommand (Page.commandChar p)
           (VObject [("cmd", VString "monitor"); ("ssid", ssid)])).2))
  ∧ (∀ e, Page.Chart_update [] [] = Some e →
          (Page.startMonitor ssid p).2 = ([Page.ChartUpdate [] []], inl e)).
Proof.
  intros Htext. unfold Page.startMonitor.
  repeat act_step. rewrite Htext. repeat act_step.
  match goal with
  | |- context [(Page.updateSignalChart ≫= _) ?q] =>
      pose proof (updateSignalChart_eq q) as Hchart
  end.
  cbn [Page.signalData Page.set_signalData Page.set_dom fmap list_fmap]
    in Hchart.
  destruct (Page.Chart_update [] []) as [e|].
  - rewrite (bind_thrown _ _ _ _ _ _ Hchart).
    cbn [fst snd Page.signalData Page.chart_labels Page.chart_data Page.dom
         Page.set_chart Page.set_signalData Page.set_dom].
    rewrite update_other, !update_same by discriminate.
    split; [reflexivity|]. split; [reflexivity|]. split; [reflexivity|].
    split; [apply classList_remove_out|]. split; [reflexivity|].
    split; [discriminate|]. by intros e' [= ->].
  - rewrite (bind_returned _ _ _ _ _ _ Hchart), send_eq.
    cbn [fst snd app Page.signalData Page.chart_labels Page.chart_data
         Page.dom Page.commandChar Page.set_chart Page.set_signalData
         Page.set_dom].
    rewrite update_other, !update_same by discriminate.
    split; [reflexivity|]. split; [reflexivity|]. split; [reflexivity|].
    split; [apply classList_remove_out|]. split; [reflexivity|].
    split; [reflexivity|discriminate].
Qed.

Lemma startMonitor_resets_window_witness :
  Page.text_of (H := Sample.browser) (VString "home") = inr "home"
  ∧ Page.signalData
      (Page.startMonitor (H0 := Bench.platform true) (VString "home")
         (Page.updateSignals (H0 := Bench.platform true)
            [Bench.signal "-40" "1"] (Bench.loaded true))).1
    = [].
Proof.
  split; [reflexivity|].
  exact (proj1 (startMonitor_resets_window (H0 := Bench.platform true)
                  (Page.updateSignals (H0 := Bench.platform true)
                     [Bench.signal "-40" "1"] (Bench.loaded true))
                  (VString "home") "home" eq_refl)).
Defined.
